(** * The metrics bridge of context-aware-study-monitor

    A shallow embedding of the Python sources that move Prometheus samples
    into Elasticsearch, and of the retry helper of the query service:

    - [src/monitoring/metrics_bridge.py]: [parse_prometheus_metrics],
      [push_to_elasticsearch], the polling loop of [main];
    - [src/prom_to_es.py]: [push_bulk_to_es];
    - [src/load_mock_to_es.py]: the module-level [bulk_body];
    - [src/monitoring/rag_query/rag_query.py]: [_post_json_with_retries]
      and its caller [log_to_elasticsearch].

    Python [str] values are sequences of Unicode code points, dictionaries
    are finite maps, and everything that talks to the network, the clock or
    the console runs in a small exception-and-trace monad whose oracle
    answers every request. *)

From Stdlib Require Import QArith Qround Qpower Ascii String DecimalString Lqa.
From stdpp Require Import gmap list.

Set Default Proof Using "Type".
Set Warnings "-register-all,-clear-no-such-hyp".
Local Open Scope N_scope.

(** ** Python strings *)

(** A [str] is a list of code points. *)
Abbreviation pystr := (list N).

(** An ASCII literal of the source. *)
Definition lit (s : string) : pystr :=
  (λ a, N_of_ascii a) <$> list_ascii_of_string s.

(** A literal in which every apostrophe stands for a double quote
    (code point 34), for the JSON texts. *)
Definition dq (s : string) : pystr :=
  (λ c, if c =? 39 then 34 else c) <$> lit s.

Module Str.

(** The line boundaries of [str.splitlines]: LF, CR, VT, FF, FS, GS, RS,
    NEL, LINE SEPARATOR and PARAGRAPH SEPARATOR. *)
Definition is_linebreak (c : N) : bool :=
  (c =? 0x0A) || (c =? 0x0D) || (c =? 0x0B) || (c =? 0x0C) ||
  (c =? 0x1C) || (c =? 0x1D) || (c =? 0x1E) || (c =? 0x85) ||
  (c =? 0x2028) || (c =? 0x2029).

(** [str.isspace] on one code point: the whitespace [str.split] and
    [str.strip] work with when called without argument. *)
Definition isspace (c : N) : bool :=
  ((0x09 <=? c) && (c <=? 0x0D)) || ((0x1C <=? c) && (c <=? 0x20)) ||
  (c =? 0x85) || (c =? 0xA0) || (c =? 0x1680) ||
  ((0x2000 <=? c) && (c <=? 0x200A)) ||
  (c =? 0x2028) || (c =? 0x2029) || (c =? 0x202F) || (c =? 0x205F) ||
  (c =? 0x3000).

(** [s.splitlines()]: the lines without their terminators; CR LF is one
    terminator, and a final terminator opens no empty last line. *)
Fixpoint splitlines (s : pystr) : list pystr :=
  match s with
  | [] => []
  | c :: s' =>
      if is_linebreak c then
        match s' with
        | c' :: s'' =>
            if (c =? 0x0D) && (c' =? 0x0A) then [] :: splitlines s''
            else [] :: splitlines s'
        | [] => [[]]
        end
      else
        match splitlines s' with
        | l :: ls => (c :: l) :: ls
        | [] => [[c]]
        end
  end.

(** [s.startswith(p)]. *)
Fixpoint startswith (s p : pystr) : bool :=
  match p, s with
  | [], _ => true
  | _ :: _, [] => false
  | a :: p', b :: s' => (a =? b) && startswith s' p'
  end.

(** [sub in s]. *)
Fixpoint contains (sub s : pystr) : bool :=
  startswith s sub ||
  match s with
  | [] => false
  | _ :: s' => contains sub s'
  end.

Fixpoint lstrip (s : pystr) : pystr :=
  match s with
  | c :: s' => if isspace c then lstrip s' else s
  | [] => []
  end.

Definition rstrip (s : pystr) : pystr := reverse (lstrip (reverse s)).

(** [s.strip()]. *)
Definition strip (s : pystr) : pystr := rstrip (lstrip s).

(** [s.split()]: the maximal runs of non-whitespace, in order. *)
Fixpoint split (s : pystr) : list pystr :=
  match s with
  | [] => []
  | c :: s' =>
      if isspace c then split s'
      else
        match s' with
        | [] => [[c]]
        | c' :: _ =>
            if isspace c' then [c] :: split s'
            else
              match split s' with
              | w :: ws => (c :: w) :: ws
              | [] => [[c]]
              end
        end
  end.

(** [s.split(sep)] for a separator of one code point: every occurrence
    cuts, empty pieces are kept, and the result is never empty. *)
Fixpoint split_on (sep : N) (s : pystr) : list pystr :=
  match s with
  | [] => [[]]
  | c :: s' =>
      if c =? sep then [] :: split_on sep s'
      else
        match split_on sep s' with
        | w :: ws => (c :: w) :: ws
        | [] => [[c]]
        end
  end.

(** [sep.join(parts)]. *)
Fixpoint join (sep : pystr) (parts : list pystr) : pystr :=
  match parts with
  | [] => []
  | [p] => p
  | p :: ps => p ++ sep ++ join sep ps
  end.

End Str.

(** ** Exceptions and results *)

(** The exceptions the modelled code can meet; all of them derive from
    [Exception], so [except Exception] catches each one. *)
Inductive exn :=
| ValueError
| IndexError
| TypeError
| Timeout
| ConnectionError
| HTTPError.

#[global] Instance exn_eq_dec : EqDecision exn.
Proof. solve_decision. Defined.

Inductive result (A : Type) :=
| Ok (a : A)
| Raise (e : exn).
Arguments Ok {A} a.
Arguments Raise {A} e.

#[global] Instance result_ret : MRet result := λ A a, Ok a.
#[global] Instance result_bind : MBind result := λ A B k r,
  match r with
  | Ok a => k a
  | Raise e => Raise e
  end.
#[global] Instance result_throw : MThrow exn result := λ A e, Raise e.

(** A [for] loop over a list that threads one value and stops at the first
    exception. *)
Fixpoint for_fold {A B} (body : A → B → result A) (acc : A) (xs : list B)
  : result A :=
  match xs with
  | [] => Ok acc
  | x :: xs' => acc' ← body acc x; for_fold body acc' xs'
  end.

(** [a, b = parts]: anything but two items is a [ValueError]. *)
Definition unpack2 {A} (parts : list A) : result (A * A) :=
  match parts with
  | [a; b] => mret (a, b)
  | _ => mthrow ValueError
  end.

(** ** The metric text parser ([metrics_bridge.py], lines 17-30) *)

Section Parser.
(** The value type of Python's [float], and [float(s)] on a string:
    [None] is the [ValueError] it raises on text that is no number. *)
Context {F : Type} (float : pystr → option F).

(** One turn of the loop over [text.splitlines()]. *)
Definition parse_line (metrics : gmap pystr F) (line : pystr)
  : result (gmap pystr F) :=
  if Str.startswith line (lit "#") || Str.contains (lit "{") line then
    mret metrics                                      (* continue *)
  else
    let parts := Str.split (Str.strip line) in
    if (length parts =? 2)%nat then
      '(name, value) ← unpack2 parts;
      match float value with
      | Some v => mret (<[name := v]> metrics)
      | None => mret metrics                          (* except ValueError: pass *)
      end
    else mret metrics.

Definition parse_prometheus_metrics (text : pystr) : result (gmap pystr F) :=
  for_fold parse_line ∅ (Str.splitlines text).

End Parser.

(** ** JSON documents and [json.dumps] *)

(** A JSON-serialisable Python value; a [dict] keeps its insertion order and
    has [str] keys. *)
Inductive json (F : Type) :=
| JNull
| JBool (b : bool)
| JInt (z : Z)
| JFloat (x : F)
| JStr (s : pystr)
| JList (items : list (json F))
| JDict (fields : list (pystr * json F)).
Arguments JNull {F}.
Arguments JBool {F} b.
Arguments JInt {F} z.
Arguments JFloat {F} x.
Arguments JStr {F} s.
Arguments JList {F} items.
Arguments JDict {F} fields.

Module Json.

Definition hexdigit (d : N) : N := if d <? 10 then 48 + d else 87 + d.

(** ['{0:04x}'.format(n)] for [n < 0x10000]. *)
Definition hex4 (n : N) : pystr :=
  [hexdigit (n / 4096 mod 16); hexdigit (n / 256 mod 16);
   hexdigit (n / 16 mod 16); hexdigit (n mod 16)].

Definition u_escape (n : N) : pystr := [92; 117] ++ hex4 n.

(** The replacement of one code point under [ensure_ascii=True]: the
    short escapes, [\uXXXX] for whatever else lies outside [' '..'~'],
    a surrogate pair above the basic plane. *)
Definition escape (c : N) : pystr :=
  if c =? 34 then [92; 34]
  else if c =? 92 then [92; 92]
  else if c =? 10 then [92; 110]
  else if c =? 13 then [92; 114]
  else if c =? 9 then [92; 116]
  else if c =? 8 then [92; 98]
  else if c =? 12 then [92; 102]
  else if (32 <=? c) && (c <=? 126) then [c]
  else if c <? 0x10000 then u_escape c
  else
    let n := c - 0x10000 in
    u_escape (N.lor 0xd800 (N.land (N.shiftr n 10) 0x3ff)) ++
    u_escape (N.lor 0xdc00 (N.land n 0x3ff)).

Definition dumps_str (s : pystr) : pystr :=
  [34] ++ mjoin (escape <$> s) ++ [34].

Definition dumps_int (z : Z) : pystr :=
  lit (NilZero.string_of_int (Z.to_int z)).

Section Dumps.
(** [float.__repr__] as [json.dumps] writes it. *)
Context {F : Type} (float_repr : F → pystr).

(** [json.dumps(j)] with the default separators. *)
Fixpoint dumps (j : json F) : pystr :=
  match j with
  | JNull => lit "null"
  | JBool b => if b then lit "true" else lit "false"
  | JInt z => dumps_int z
  | JFloat x => float_repr x
  | JStr s => dumps_str s
  | JList items =>
      lit "[" ++ Str.join (lit ", ") (map dumps items) ++ lit "]"
  | JDict fields =>
      lit "{" ++
      Str.join (lit ", ")
        (map (λ kv, dumps_str kv.1 ++ lit ": " ++ dumps kv.2) fields) ++
      lit "}"
  end.
End Dumps.

End Json.

(** ** The world: network, clock, console *)

Record response := { status_code : Z; text : pystr }.

(** What one HTTP call comes to: a response of any status, or an exception
    of the [requests] library (a timeout, a refused connection, ...). *)
Inductive outcome :=
| Returns (r : response)
| Fails (e : exn).

Section World.
Context {F : Type}.

(** The dictionary [push_to_elasticsearch] builds. *)
Record document := {
  timestamp : pystr;              (* "@timestamp" *)
  service : pystr;                (* "service" *)
  metrics : gmap pystr F          (* "metrics" *)
}.

Inductive body :=
| JsonBody (d : document)         (* json=payload *)
| DataBody (s : pystr).           (* data=... *)

Inductive request :=
| GET (url : pystr) (timeout : option Z)
| POST (url : pystr) (headers : list (pystr * pystr)) (b : body)
       (timeout : option Z).

(** The lines the code prints, by the values they interpolate. *)
Inductive message :=
| BridgeRunning
| Pushed (service_name : pystr)
| PushFailed (status : Z) (text120 : pystr)
| PushError (e : exn)
| CannotFetch (url : pystr) (status : Z)
| FetchError (url : pystr) (e : exn)
| BulkFailed (status : Z) (text300 : pystr)
| BulkError (e : exn)
| MockStatus (status : Z)
| MockResponse (text500 : pystr).

Inductive event :=
| Http (req : request) (out : outcome)
| Slept (seconds : Q)
| Printed (m : message)
| Clock (now : pystr).

(** The environment answers each request and each reading of the clock,
    knowing all that happened before. *)
Record env := {
  net : list event → request → outcome;
  utcnow : list event → pystr
}.

(** A computation runs from the trace so far to a value or an exception
    and the trace extended by what it did. *)
Definition io (A : Type) : Type := list event → result A * list event.

#[global] Instance io_ret : MRet io := λ A a tr, (Ok a, tr).
#[global] Instance io_throw : MThrow exn io := λ A e tr, (Raise e, tr).
#[global] Instance io_bind : MBind io := λ A B k m tr,
  match m tr with
  | (Ok a, tr') => k a tr'
  | (Raise e, tr') => (Raise e, tr')
  end.
(** [try: m except Exception as e: handler e]. *)
Definition try_except {A} (m : io A) (handler : exn → io A) : io A :=
  λ tr, match m tr with
        | (Ok a, tr') => (Ok a, tr')
        | (Raise e, tr') => handler e tr'
        end.
Definition lift {A} (r : result A) : io A :=
  match r with Ok a => mret a | Raise e => mthrow e end.
Definition emit (ev : event) : io unit := λ tr, (Ok tt, tr ++ [ev]).

Definition print (m : message) : io unit := emit (Printed m).

(** [time.sleep(d)]: a negative length is a [ValueError]. *)
Definition sleep (d : Q) : io unit :=
  if Qle_bool 0 d then emit (Slept d) else mthrow ValueError.

Section Calls.
Context (E : env).

Definition http (req : request) : io response :=
  λ tr, match net E tr req with
        | Returns r => (Ok r, tr ++ [Http req (Returns r)])
        | Fails e => (Raise e, tr ++ [Http req (Fails e)])
        end.

Definition requests_get (url : pystr) (timeout : option Z) : io response :=
  http (GET url timeout).

Definition requests_post (url : pystr) (headers : list (pystr * pystr))
    (b : body) (timeout : option Z) : io response :=
  http (POST url headers b timeout).

(** [datetime.utcnow().isoformat()]. *)
Definition utcnow_isoformat : io pystr :=
  λ tr, let now := utcnow E tr in (Ok now, tr ++ [Clock now]).
End Calls.

(** A [for] loop run for its effects. *)
Fixpoint for_each {A} (body : A → io unit) (xs : list A) : io unit :=
  match xs with
  | [] => mret tt
  | x :: xs' => body x;; for_each body xs'
  end.

End World.
Arguments document : clear implicits.
Arguments body : clear implicits.
Arguments request : clear implicits.
Arguments event : clear implicits.
Arguments env : clear implicits.
Arguments io : clear implicits.

(** [seq[i]] on a list: out of range is an [IndexError]. *)
Definition index {A} (xs : list A) (i : nat) : result A :=
  match xs !! i with
  | Some x => Ok x
  | None => Raise IndexError
  end.

(** [s[:n]]. *)
Definition slice_to (n : nat) (s : pystr) : pystr := take n s.

(** [code in (200, 201)]. *)
Definition in_200_201 (code : Z) : bool := ((code =? 200) || (code =? 201))%Z.

(** ** The bridge ([metrics_bridge.py]) *)

Module Bridge.

Definition PROM_ENDPOINTS : list pystr :=
  [lit "http://localhost:8000/metrics"; lit "http://localhost:8011/metrics"].

Definition ELASTIC_URL : pystr := lit "http://localhost:9200/rag_metrics/_doc".

(** [url.split(":")[2].split("/")[0]]. *)
Definition service_name_of (url : pystr) : result pystr :=
  p ← index (Str.split_on 58 url) 2; index (Str.split_on 47 p) 0.

Section Bridge.
Context {F : Type} (float : pystr → option F) (E : env F).

Definition push_to_elasticsearch (service_name : pystr) (metrics : gmap pystr F)
  : io F unit :=
  now ← utcnow_isoformat E;
  let payload :=
    {| timestamp := now; service := service_name; metrics := metrics |} in
  try_except
    (res ← requests_post E ELASTIC_URL [] (JsonBody payload) (Some 5%Z);
     if in_200_201 (status_code res) then print (Pushed service_name)
     else print (PushFailed (status_code res) (slice_to 120 (text res))))
    (λ e, print (PushError e)).

(** The body of [for url in PROM_ENDPOINTS]. *)
Definition poll (url : pystr) : io F unit :=
  service_name ← lift (service_name_of url);
  try_except
    (r ← requests_get E url (Some 5%Z);
     if (status_code r =? 200)%Z then
       metrics ← lift (parse_prometheus_metrics float (text r));
       push_to_elasticsearch service_name metrics
     else print (CannotFetch url (status_code r)))
    (λ e, print (FetchError url e)).

(** One turn of [while True]. *)
Definition tick_over (endpoints : list pystr) : io F unit :=
  for_each poll endpoints;; sleep 10.

Definition tick : io F unit := tick_over PROM_ENDPOINTS.

(** The first [n] turns of the loop, which has no exit of its own. *)
Fixpoint ticks (n : nat) : io F unit :=
  match n with
  | O => mret tt
  | S n' => tick;; ticks n'
  end.

Definition main (n : nat) : io F unit :=
  print BridgeRunning;; ticks n.
End Bridge.

End Bridge.

(** ** Floats

    A float is modelled by the rational number it denotes, and an operation
    on floats by the exact operation followed by rounding to the nearest
    double (IEEE 754 binary64: 53 significant bits, spacing no finer than
    [2^-1074], ties to the even neighbour). The largest double puts no
    limit on the results here: [time.sleep] refuses a length long before
    a product comes near it. *)

Module Float.
Local Open Scope Q_scope.

(** The exponent of the smallest positive double. *)
Definition emin : Z := -1074.

(** Half the distance, relative to [1], from [1] to the next double. *)
Definition unit_roundoff : Q := 2 ^ (-53).

(** [floor (log2 x)] for a positive [x]. *)
Definition ilog2 (x : Q) : Z :=
  let k := (Z.log2 (Qnum x) - Z.log2 (Zpos (Qden x)))%Z in
  if Qle_bool (2 ^ k) x then k else (k - 1)%Z.

(** The nearest integer, the even one of two that are as near. *)
Definition nearest_even (y : Q) : Z :=
  let q := Qfloor y in
  match Qcompare (y - inject_Z q) (1 # 2) with
  | Lt => q
  | Gt => (q + 1)%Z
  | Eq => if Z.even q then q else (q + 1)%Z
  end.

(** The exponent of the distance between the doubles around a positive [x]. *)
Definition spacing (x : Q) : Z := Z.max (ilog2 x - 52) emin.

Definition round_pos (x : Q) : Q :=
  let e := spacing x in
  inject_Z (nearest_even (x * 2 ^ (- e))) * 2 ^ e.

(** The double nearest to [x]. *)
Definition round (x : Q) : Q :=
  let x := Qred x in
  match Qcompare x 0 with
  | Eq => 0
  | Gt => Qred (round_pos x)
  | Lt => Qred (- round_pos (- x))
  end.

(** [float(z)] for an [int]. *)
Definition of_int (z : Z) : Q := round (inject_Z z).

(** [x * y] on floats. *)
Definition mul (x y : Q) : Q := round (x * y).

(** The rationals that are doubles. *)
Definition is_float (x : Q) : Prop :=
  ∃ m e : Z, (Z.abs m < 2 ^ 53)%Z ∧ (emin ≤ e)%Z ∧ x == inject_Z m * 2 ^ e.

End Float.

(** ** The retry helper of the query service ([rag_query.py], lines 172-181) *)

(** [range(n)]. *)
Definition range (n : Z) : list Z := Z.of_nat <$> seq 0 (Z.to_nat n).

Module RagQuery.

Definition ELASTIC_INDEX : pystr := lit "rag_queries".
Definition ELASTIC_INDEX_URL : pystr :=
  lit "http://host.docker.internal:9200/" ++ ELASTIC_INDEX.
Definition ELASTIC_DOC_URL : pystr := ELASTIC_INDEX_URL ++ lit "/_doc".

Definition default_attempts : Z := 3.
Definition default_backoff : Q := 1 # 2.

Definition json_headers : list (pystr * pystr) :=
  [(lit "Content-Type", lit "application/json")].

Section Retry.
Context {F : Type} (float_repr : F → pystr) (E : env F).

(** [raise last_exc]: raising [None] is itself a [TypeError]. *)
Definition raise_last {A} (last_exc : option exn) : io F A :=
  match last_exc with
  | Some e => mthrow e
  | None => mthrow TypeError
  end.

(** The loop [for i in range(attempts)] from the turns still to come and
    the current [last_exc]; after it, [raise last_exc]. The length of the
    sleep, [backoff * (i + 1)], is a product of floats. *)
Fixpoint retry_loop (url : pystr) (payload : json F) (backoff : Q)
    (turns : list Z) (last_exc : option exn) : io F response :=
  match turns with
  | [] => raise_last last_exc
  | i :: turns' =>
      attempt ← try_except
        (res ← requests_post E url json_headers
           (DataBody (Json.dumps float_repr payload)) (Some 5%Z);
         mret (inl res))
        (λ e, sleep (Float.mul backoff (Float.of_int (i + 1)));; mret (inr e));
      match attempt with
      | inl res => mret res                                  (* return res *)
      | inr e => retry_loop url payload backoff turns' (Some e)
      end
  end.

Definition _post_json_with_retries (url : pystr) (payload : json F)
    (attempts : Z) (backoff : Q) : io F response :=
  retry_loop url payload backoff (range attempts) None.
End Retry.

End RagQuery.

(** ** The bulk writers ([prom_to_es.py], [load_mock_to_es.py]) *)

Definition nl : pystr := [10].

Definition ndjson_headers : list (pystr * pystr) :=
  [(lit "Content-Type", lit "application/x-ndjson")].

Module PromToEs.

Definition ES : pystr := lit "http://localhost:9200".
Definition INDEX : pystr := lit "prometheus_bridge".

Section Bulk.
Context {F : Type} (float_repr : F → pystr) (E : env F).

(** [{"index": {"_index": INDEX}}]. *)
Definition action : json F :=
  JDict [(lit "index", JDict [(lit "_index", JStr INDEX)])].

(** The loop that grows [bulk_data] by two lines a document. *)
Definition bulk_data_of (docs : list (json F)) : pystr :=
  foldl (λ bulk_data doc,
           let bulk_data := bulk_data ++ (Json.dumps float_repr action ++ nl) in
           bulk_data ++ (Json.dumps float_repr doc ++ nl))
        [] docs.

Definition push_bulk_to_es (docs : list (json F)) : io F unit :=
  match docs with
  | [] => mret tt                                            (* if not docs: return *)
  | _ :: _ =>
      let bulk_data := bulk_data_of docs in
      try_except
        (r ← requests_post E (ES ++ lit "/_bulk") ndjson_headers
           (DataBody bulk_data) (Some 15%Z);
         if negb (in_200_201 (status_code r)) then
           print (BulkFailed (status_code r) (slice_to 300 (text r)))
         else mret tt)
        (λ e, print (BulkError e))
  end.
End Bulk.

End PromToEs.

Module LoadMock.

Definition ES_URL : pystr := lit "http://localhost:9200/prometheus_bridge/_bulk".

Section Load.
Context {F : Type} (float_repr : F → pystr) (E : env F).

Definition action : json F :=
  JDict [(lit "index", JDict [(lit "_index", JStr (lit "prometheus_bridge"))])].

Definition bulk_lines (data : list (json F)) : list pystr :=
  foldl (λ bulk_lines doc,
           (bulk_lines ++ [Json.dumps float_repr action])
             ++ [Json.dumps float_repr doc])
        [] data.

Definition bulk_body (data : list (json F)) : pystr :=
  Str.join nl (bulk_lines data) ++ nl.

(** The script from the loaded [data] on. *)
Definition load (data : list (json F)) : io F unit :=
  r ← requests_post E ES_URL ndjson_headers (DataBody (bulk_body data)) None;
  print (MockStatus (status_code r));;
  print (MockResponse (slice_to 500 (text r))).
End Load.

End LoadMock.

(** ** Decimal numerals

    [float(s)] for the ASCII grammar of Python's float literals, with the
    value a numeral denotes kept exact: rounding to the nearest double,
    overflow to infinity and the digits of other scripts are left out. *)

Module Decimal.

Inductive value :=
| Finite (q : Q)
| Infinity (negative : bool)
| NaN.

Definition digit_val (c : N) : option Z :=
  if (48 <=? c) && (c <=? 57) then Some (Z.of_N (c - 48)) else None.

(** Further digits after a first one, single underscores between digits
    allowed: the number read so far, how many digits, what is left. *)
Fixpoint more_digits (acc : Z) (n : nat) (s : pystr) : Z * nat * pystr :=
  match s with
  | [] => (acc, n, s)
  | c :: s' =>
      match digit_val c with
      | Some d => more_digits (10 * acc + d) (S n) s'
      | None =>
          if c =? 95 then
            match s' with
            | c' :: s'' =>
                match digit_val c' with
                | Some d => more_digits (10 * acc + d) (S n) s''
                | None => (acc, n, s)
                end
            | [] => (acc, n, s)
            end
          else (acc, n, s)
      end
  end.

Definition digitpart (s : pystr) : option (Z * nat * pystr) :=
  match s with
  | c :: s' => d ← digit_val c; Some (more_digits d 1 s')
  | [] => None
  end.

Definition lower (c : N) : N := if (65 <=? c) && (c <=? 90) then c + 32 else c.

Definition sign (s : pystr) : bool * pystr :=
  match s with
  | 43 :: r => (false, r)
  | 45 :: r => (true, r)
  | _ => (false, s)
  end.

Definition exponent (s : pystr) : option Z :=
  match s with
  | [] => Some 0%Z
  | c :: r =>
      if lower c =? 101 then
        let '(neg, r') := sign r in
        match digitpart r' with
        | Some (e, _, []) => Some (if neg : bool then - e else e)%Z
        | _ => None
        end
      else None
  end.

(** [number]: digits, digits with a fraction, or a bare fraction, as the
    integer of all digits, the count of fraction digits and the rest. *)
Definition number (s : pystr) : option (Z * nat * pystr) :=
  match digitpart s with
  | Some (ip, _, 46 :: r) =>
      match digitpart r with
      | Some (fp, n, r') => Some ((ip * 10 ^ Z.of_nat n + fp)%Z, n, r')
      | None => Some (ip, O, r)
      end
  | Some (ip, _, r) => Some (ip, O, r)
  | None =>
      match s with
      | 46 :: r => digitpart r
      | _ => None
      end
  end.

Definition scale (m k : Z) : Q :=
  if (0 <=? k)%Z then inject_Z (m * 10 ^ k) else m # Z.to_pos (10 ^ (- k)).

Definition float (s : pystr) : option value :=
  let '(neg, r) := sign (Str.strip s) in
  let name := lower <$> r in
  if bool_decide (name = lit "inf" ∨ name = lit "infinity") then Some (Infinity neg)
  else if bool_decide (name = lit "nan") then Some NaN
  else
    '(m, n, rest) ← number r;
    e ← exponent rest;
    let q := scale m (e - Z.of_nat n) in
    Some (Finite (Qred (if neg then - q else q))).

End Decimal.

(** ** What the statements below are written with *)

(** A text of lines, each ended by a line feed. *)
Definition unlines (lines : list pystr) : pystr := mjoin ((λ l, l ++ nl) <$> lines).

(** A string that [splitlines] leaves in one piece. *)
Definition single_line (l : pystr) : Prop :=
  Forall (λ c, Str.is_linebreak c = false) l.

Definition blank (ws : pystr) : Prop := Forall (λ c, Str.isspace c = true) ws.

(** After a token comes the end of the string or whitespace. *)
Definition at_boundary (s : pystr) : Prop :=
  match s with [] => True | c :: _ => Str.isspace c = true end.

(** A string without a line feed. *)
Definition one_line (s : pystr) : Prop := 10 ∉ s.

Definition token (w : pystr) : Prop :=
  w ≠ [] ∧ Forall (λ c, Str.isspace c = false) w.

Section ParserSpec.
Context {F : Type} (float : pystr → option F).

(** A bare [name value] line, in the words of the exposition format: a
    name and a numeral, whitespace between and possibly around them, no
    comment marker [#] in front and no label block [{]. *)
Definition well_formed (line name : pystr) (v : F) : Prop :=
  ∃ ws1 ws2 ws3 value,
    line = ws1 ++ name ++ ws2 ++ value ++ ws3 ∧
    blank ws1 ∧ blank ws2 ∧ ws2 ≠ [] ∧ blank ws3 ∧
    token name ∧ token value ∧
    head line ≠ Some 35 ∧ (123 ∉ line) ∧
    float value = Some v.

Inductive line_class :=
| Sample (name : pystr) (v : F)
| Malformed.

Definition classified (line : pystr) (k : line_class) : Prop :=
  match k with
  | Sample name v => well_formed line name v
  | Malformed => ∀ name v, ¬ well_formed line name v
  end.

(** The samples of the well-formed lines, in the order of the text. *)
Definition samples (ks : list line_class) : list (pystr * F) :=
  omap (λ k, match k with Sample name v => Some (name, v) | Malformed => None end) ks.

(** The lines the parser passes over. *)
Definition skipped (line : pystr) : Prop :=
  head line = Some 35 ∨ 123 ∈ line ∨ length (Str.split line) ≠ 2%nat ∨
  ∃ name value, Str.split line = [name; value] ∧ float value = None.

(** What one line contributes, read off [parse_line]. *)
Definition line_entry (line : pystr) : option (pystr * F) :=
  if Str.startswith line (lit "#") || Str.contains (lit "{") line then None
  else
    match Str.split line with
    | [name; value] => v ← float value; Some (name, v)
    | _ => None
    end.

Definition store (metrics : gmap pystr F) (s : pystr * F) : gmap pystr F :=
  <[s.1 := s.2]> metrics.

(** The mapping after one more line. *)
Definition absorb (metrics : gmap pystr F) (line : pystr) : gmap pystr F :=
  from_option (store metrics) metrics (line_entry line).
End ParserSpec.
Arguments line_class : clear implicits.
Arguments Malformed {F}.

Section Traces.
Context {F : Type}.

(** The POST requests of a trace, with what became of each. *)
Definition posts (tr : list (event F)) : list (request F * outcome) :=
  omap (λ ev, match ev with
              | Http (POST u h b t) out => Some (POST u h b t, out)
              | _ => None
              end) tr.

(** The exceptions of the calls that raised, in order. *)
Definition failures (tr : list (event F)) : list exn :=
  omap (λ ev, match ev with Http _ (Fails e) => Some e | _ => None end) tr.

(** The lengths of the sleeps, in order. *)
Definition sleeps (tr : list (event F)) : list Q :=
  omap (λ ev, match ev with Slept d => Some d | _ => None end) tr.

Definition total (ds : list Q) : Q := foldr Qplus 0%Q ds.

Definition http_calls (tr : list (event F)) : nat :=
  length (omap (λ ev, match ev with Http _ _ => Some tt | _ => None end) tr).

(** An environment that answers the [k]-th HTTP call of the run with the
    [k]-th outcome of a script, and [otherwise] past its end. *)
Definition scripted (script : list outcome) (otherwise : outcome) (now : pystr)
  : env F :=
  {| net := λ tr _, default otherwise (script !! http_calls tr);
     utcnow := λ _, now |}.

(** A fetch that does not lead to a push: an exception, or a status that
    is not 200. *)
Definition fetch_failed (out : outcome) : Prop :=
  match out with
  | Fails _ => True
  | Returns r => status_code r ≠ 200%Z
  end.

(** A write the sink did not accept. *)
Definition write_failed (out : outcome) : Prop :=
  match out with
  | Fails _ => True
  | Returns r => in_200_201 (status_code r) = false
  end.
End Traces.

(** The sum [(0+1) + (1+1) + ...] over the turns of a loop. *)
Definition turn_weights (turns : list Z) : Z := foldr (λ i acc, ((i + 1) + acc)%Z) 0%Z turns.

(** Floats of integral value (below [10^16], where [repr] writes all the
    digits and [.0]). *)
Definition integral_repr (z : Z) : pystr := Json.dumps_int z ++ lit ".0".

Section Requests.
Context {F : Type}.

Definition fetch_request (url : pystr) : request F := GET url (Some 5%Z).

Definition sink_request (doc : document F) : request F :=
  POST Bridge.ELASTIC_URL [] (JsonBody doc) (Some 5%Z).

Definition retry_request (float_repr : F → pystr) (url : pystr) (payload : json F)
  : request F :=
  POST url RagQuery.json_headers (DataBody (Json.dumps float_repr payload)) (Some 5%Z).

(** The line [push_to_elasticsearch] prints for an outcome of its write. *)
Definition push_report (service_name : pystr) (out : outcome) : message :=
  match out with
  | Returns r =>
      if in_200_201 (status_code r) then Pushed service_name
      else PushFailed (status_code r) (slice_to 120 (text r))
  | Fails e => PushError e
  end.

(** The line [main] prints for a fetch it gives up on. *)
Definition skip_report (url : pystr) (out : outcome) : message :=
  match out with
  | Returns r => CannotFetch url (status_code r)
  | Fails e => FetchError url e
  end.

(** One push, as the trace shows it: the clock is read, the document is
    posted once, one line is printed. *)
Definition push_events (E : env F) (service_name : pystr) (m : gmap pystr F)
    (tr : list (event F)) : list (event F) :=
  let now := utcnow E tr in
  let doc := {| timestamp := now; service := service_name; metrics := m |} in
  let out := net E (tr ++ [Clock now]) (sink_request doc) in
  [Clock now; Http (sink_request doc) out; Printed (push_report service_name out)].

(** What [push_bulk_to_es] prints for an outcome of its write. *)
Definition bulk_report (out : outcome) : list (event F) :=
  match out with
  | Returns r =>
      if in_200_201 (status_code r) then []
      else [Printed (BulkFailed (status_code r) (slice_to 300 (text r)))]
  | Fails e => [Printed (BulkError e)]
  end.
End Requests.

Definition action_line : pystr := dq "{'index': {'_index': 'prometheus_bridge'}}".

(** The lines of a bulk body: for each document its action line, then the
    document. *)
Definition ndjson_lines {F} (float_repr : F → pystr) (docs : list (json F))
  : list pystr :=
  docs ≫= (λ doc, [action_line; Json.dumps float_repr doc]).

(** ** Scenarios *)

Definition answer (code : Z) : response := {| status_code := code; text := [] |}.

Definition sink_503_503_201 {F} : env F :=
  scripted [Returns (answer 503); Returns (answer 503); Returns (answer 201)]
           (Returns (answer 201)) (lit "2025-01-01T00:00:00").

Definition sink_raises_twice {F} : env F :=
  scripted [Fails ConnectionError; Fails Timeout; Returns (answer 201)]
           (Returns (answer 201)) (lit "2025-01-01T00:00:00").

Definition sink_down {F} : env F :=
  scripted [] (Fails ConnectionError) (lit "2025-01-01T00:00:00").

Definition sink_accepts {F} : env F :=
  scripted [] (Returns (answer 200)) (lit "2025-01-01T00:00:00").

Definition log_entry : json Z :=
  JDict [(lit "query", JStr (lit "what is a tick?"));
         (lit "retrieval_time", JFloat 2%Z);
         (lit "status", JStr (lit "success"));
         (lit "source", JStr (lit "rag_query"))].

Definition log_request : request Z :=
  retry_request integral_repr RagQuery.ELASTIC_DOC_URL log_entry.

(** The spec's scenario of a sink that answers 503, 503, 201: three posts,
    two sleeps of growing length between them, the 201 returned. *)
Definition retries_503_until_201 : Prop :=
  ∃ d1 d2 : Q,
    RagQuery._post_json_with_retries integral_repr sink_503_503_201
      RagQuery.ELASTIC_DOC_URL log_entry 3 (1 # 2) [] =
      (Ok (answer 201),
       [Http log_request (Returns (answer 503)); Slept d1;
        Http log_request (Returns (answer 503)); Slept d2;
        Http log_request (Returns (answer 201))]) ∧
    (d1 < d2)%Q.

Definition sample_text : list pystr :=
  [ lit "up 1"; lit "# HELP up"; lit "up{job=x} 5"; lit "  latency   0.25 ";
    lit "up 0"; lit "stray"; lit "size many" ].

Definition sample_classes : list (line_class Decimal.value) :=
  [ Sample (lit "up") (Decimal.Finite 1); Malformed; Malformed;
    Sample (lit "latency") (Decimal.Finite (1 # 4));
    Sample (lit "up") (Decimal.Finite 0); Malformed; Malformed ].

Definition scenario_text : pystr :=
  lit "rag_queries_total 42" ++ nl ++ lit "rag_retrieval_time_seconds 0.07" ++ nl ++
  lit "# HELP ignored" ++ nl ++ lit "bad_line_no_value" ++ nl.

Definition scenario_metrics : gmap pystr Decimal.value :=
  {[ lit "rag_queries_total" := Decimal.Finite 42;
     lit "rag_retrieval_time_seconds" := Decimal.Finite (7 # 100) ]}.

Definition source_A : pystr := lit "http://localhost:8000/metrics".
Definition source_B : pystr := lit "http://localhost:8011/metrics".

Definition scenario_response (code : Z) : response :=
  {| status_code := code; text := scenario_text |}.

Definition scenario_document (now : pystr) : document Decimal.value :=
  {| timestamp := now; service := lit "8000"; metrics := scenario_metrics |}.

(** Source A is unreachable, source B serves the scenario text, the sink
    accepts what it is sent. *)
Definition source_A_down : env Decimal.value :=
  {| net := λ _ req,
       match req with
       | GET url _ =>
           if bool_decide (url = source_A) then Fails ConnectionError
           else Returns (scenario_response 200)
       | POST _ _ _ _ => Returns (answer 201)
       end;
     utcnow := λ _, lit "2025-01-01T00:00:00" |}.

(** The source answers with the given status, then the sink accepts. *)
Definition source_answers (code : Z) : env Decimal.value :=
  scripted [Returns (scenario_response code)] (Returns (answer 201))
           (lit "2025-01-01T00:00:00").

(** The literal [0.003]. *)
Definition backoff_0_003 : Q := Float.round (3 # 1000).

(** The spec's bound on the time slept, for the sleeps of the code. *)
Definition sleeps_within_bound : Prop :=
  ∀ (E : env Z) (attempts : Z) (backoff : Q) res new,
    (0 ≤ attempts)%Z → Float.is_float backoff → (0 <= backoff)%Q →
    RagQuery._post_json_with_retries integral_repr E
      RagQuery.ELASTIC_DOC_URL log_entry attempts backoff [] = (res, new) →
    (total (sleeps new) <= backoff * (inject_Z (attempts * (attempts + 1)) / 2))%Q.

(** The spec's sentence on transient sink errors: a push whose writes all
    failed made as many attempts as the ceiling allows. *)
Definition sink_write_retried (ceiling : nat) : Prop :=
  ∀ (E : env Decimal.value) svc m tr new,
    Bridge.push_to_elasticsearch E svc m tr = (Ok tt, tr ++ new) →
    Forall (λ p, write_failed p.2) (posts new) →
    length (posts new) = ceiling.

(** The claim's sentence on braces: a line that holds a brace character,
    opening or closing, is passed over. *)
Definition any_brace_is_skipped : Prop :=
  ∀ (m : gmap pystr Decimal.value) (line : pystr),
    123 ∈ line ∨ 125 ∈ line → parse_line Decimal.float m line = Ok m.

(** The spec's sentence on the source pull protocol: a fetch answered with
    any 2xx status leads to a push. *)
Definition any_2xx_is_pushed : Prop :=
  ∀ (E : env Decimal.value) url svc tr r,
    Bridge.service_name_of url = Ok svc →
    net E tr (fetch_request url) = Returns r →
    (200 ≤ status_code r < 300)%Z →
    ∃ new, (Bridge.poll Decimal.float E url tr).2 = tr ++ new ∧ posts new ≠ [].

Definition mock_point (metric : pystr) (value : Z) : json Z :=
  JDict [(lit "@timestamp", JStr (lit "2025-01-01T00:00:00Z"));
         (lit "metric", JStr metric);
         (lit "value", JFloat value);
         (lit "labels", JDict [(lit "job", JStr (lit "rag_system"));
                               (lit "instance", JStr (lit "host.docker.internal:8000"))])].

Definition mock_points : list (json Z) :=
  [mock_point (lit "rag_queries_total") 42; mock_point (lit "rag_index_size") 7].

(** ** The chunker of the ingestion service ([rag_ingest.py], lines 69-73) *)

(** [range(start, stop, step)]: a step of zero is a [ValueError]. *)
Definition range3 (start stop step : Z) : result (list Z) :=
  if (step =? 0)%Z then mthrow ValueError
  else
    let count :=
      if (0 <? step)%Z then ((stop - start + step - 1) / step)%Z
      else ((start - stop - step - 1) / (- step))%Z in
    mret ((λ k, (start + Z.of_nat k * step)%Z) <$> seq 0 (Z.to_nat count)).

(** [l[lo:hi]]: a negative bound counts from the end, and both bounds are
    cut to the list. *)
Definition slice {A} (lo hi : Z) (l : list A) : list A :=
  let n := Z.of_nat (length l) in
  let clamp (k : Z) := if (k <? 0)%Z then Z.max 0 (n + k) else Z.min n k in
  take (Z.to_nat (clamp hi - clamp lo)) (drop (Z.to_nat (clamp lo)) l).

Module RagIngest.

Definition CHUNK_SIZE : Z := 400.

(** [chunk_text(text, size)], a generator: the chunks a [for] loop over it
    receives, or the exception its first step raises. *)
Definition chunk_text (text : pystr) (size : Z) : result (list pystr) :=
  let words := Str.split text in
  starts ← range3 0 (Z.of_nat (length words)) size;
  mret ((λ i : Z, Str.join (lit " ") (slice i (i + size) words)) <$> (starts : list Z)).

End RagIngest.

(** ** The query service's index check and logger ([rag_query.py], lines 62-98
    and 184-209)

    These print lines and send requests of their own, so they run on a
    trace of their own kinds of steps, into which a computation of the
    bridge's world is run as it is. *)

Module Service.

(** [json.dumps(j, indent=indent)] at a nesting [level]: one item a line,
    [","] between items, [": "] after a key. *)
Fixpoint dumps_indented {F} (float_repr : F → pystr) (indent level : nat)
    (j : json F) : pystr :=
  let newline_indent := nl ++ replicate (indent * S level) 32 in
  let closing := nl ++ replicate (indent * level) 32 in
  match j with
  | JList items =>
      match items with
      | [] => lit "[]"
      | _ :: _ =>
          lit "[" ++ newline_indent ++
          Str.join (lit "," ++ newline_indent)
            (map (dumps_indented float_repr indent (S level)) items) ++
          closing ++ lit "]"
      end
  | JDict fields =>
      match fields with
      | [] => lit "{}"
      | _ :: _ =>
          lit "{" ++ newline_indent ++
          Str.join (lit "," ++ newline_indent)
            (map (λ kv, Json.dumps_str kv.1 ++ lit ": " ++
                        dumps_indented float_repr indent (S level) kv.2) fields) ++
          closing ++ lit "}"
      end
  | _ => Json.dumps float_repr j
  end.

(** The exceptions that derive from [requests.exceptions.RequestException]. *)
Definition is_request_exception (e : exn) : bool :=
  match e with
  | Timeout | ConnectionError | HTTPError => true
  | ValueError | IndexError | TypeError => false
  end.

Section World.
Context {F : Type}.

Inductive call :=
| Get (url : pystr) (timeout : Q)
| Put (url : pystr) (payload : json F) (timeout : Q).

(** The lines the service prints, by the values they interpolate. *)
Inductive note :=
| IndexExists (index : pystr)
| IndexCreated (index : pystr)
| IndexCreateFailed (index : pystr) (status : Z) (text : pystr)
| IndexUnreachable (index : pystr) (e : exn)
| DebugAttempt
| DebugUrl (url : pystr)
| DebugPayload (preview500 : pystr)
| DebugResponse (status : Z)
| LoggedOk
| LogFailed (status : Z) (text300 : pystr)
| LogGaveUp (e : exn).

Inductive step :=
| Base (ev : event F)
| Called (c : call) (out : outcome)
| Noted (n : note).

(** The environment answers the service's calls, and for each computation
    of the bridge's world run inside it supplies the network and clock that
    computation meets, knowing all that happened before. *)
Record world := {
  answers : list step → call → outcome;
  base_env : list step → env F
}.

Definition sio (A : Type) : Type := list step → result A * list step.

#[global] Instance sio_ret : MRet sio := λ A a st, (Ok a, st).
#[global] Instance sio_throw : MThrow exn sio := λ A e st, (Raise e, st).
#[global] Instance sio_bind : MBind sio := λ A B k m st,
  match m st with
  | (Ok a, st') => k a st'
  | (Raise e, st') => (Raise e, st')
  end.

(** [try: m except Exception as e: handler e]. *)
Definition try_any {A} (m : sio A) (handler : exn → sio A) : sio A :=
  λ st, match m st with
        | (Ok a, st') => (Ok a, st')
        | (Raise e, st') => handler e st'
        end.

(** [try: m except requests.exceptions.RequestException as e: handler e]. *)
Definition try_requests {A} (m : sio A) (handler : exn → sio A) : sio A :=
  λ st, match m st with
        | (Ok a, st') => (Ok a, st')
        | (Raise e, st') =>
            if is_request_exception e then handler e st' else (Raise e, st')
        end.

Definition say (n : note) : sio unit := λ st, (Ok tt, st ++ [Noted n]).

Definition request (W : world) (c : call) : sio response :=
  λ st, match answers W st c with
        | Returns r => (Ok r, st ++ [Called c (Returns r)])
        | Fails e => (Raise e, st ++ [Called c (Fails e)])
        end.

(** A computation of the bridge's world, run from an empty trace of its own
    in the environment the history selects; what it did is appended. *)
Definition run_base {A} (W : world) (m : env F → io F A) : sio A :=
  λ st, let '(r, tr) := m (base_env W st) [] in (r, st ++ (Base <$> tr)).

Definition base_events (st : list step) : list (event F) :=
  omap (λ s, match s with Base ev => Some ev | _ => None end) st.

Definition calls (st : list step) : list (call * outcome) :=
  omap (λ s, match s with Called c out => Some (c, out) | _ => None end) st.

Definition notes (st : list step) : list note :=
  omap (λ s, match s with Noted n => Some n | _ => None end) st.

Definition DEFAULT_MAPPING : json F :=
  let typed (t : pystr) : json F := JDict [(lit "type", JStr t)] in
  JDict [(lit "mappings", JDict [(lit "properties", JDict [
    (lit "@timestamp", typed (lit "date"));
    (lit "query", JDict [(lit "type", JStr (lit "text"));
                         (lit "fields", JDict [(lit "keyword", typed (lit "keyword"))])]);
    (lit "response", typed (lit "text"));
    (lit "retrieval_time", typed (lit "float"));
    (lit "generation_time", typed (lit "float"));
    (lit "status", typed (lit "keyword"));
    (lit "source", typed (lit "keyword"))])])].

Section Code.
Context (W : world).

Definition ensure_elastic_index (timeout : Q) : sio bool :=
  found ← try_requests
    (r ← request W (Get RagQuery.ELASTIC_INDEX_URL timeout);
     if (status_code r =? 200)%Z then
       say (IndexExists RagQuery.ELASTIC_INDEX);; mret true      (* return True *)
     else mret false)
    (λ _, mret false);                                            (* pass *)
  if found : bool then mret true
  else
    try_requests
      (r ← request W (Put RagQuery.ELASTIC_INDEX_URL DEFAULT_MAPPING timeout);
       if in_200_201 (status_code r) then
         say (IndexCreated RagQuery.ELASTIC_INDEX);; mret true
       else
         say (IndexCreateFailed RagQuery.ELASTIC_INDEX (status_code r) (text r));;
         mret false)
      (λ e, say (IndexUnreachable RagQuery.ELASTIC_INDEX e);; mret false).

(** [float.__repr__], and [round(x, 3)] on a float. *)
Context (float_repr : F → pystr) (round3 : F → F).

Definition log_entry_of (now q answer : pystr) (retrieval_time gen_time : F)
    (status : pystr) : json F :=
  JDict [(lit "@timestamp", JStr now);
         (lit "query", JStr q);
         (lit "response", JStr (slice_to 1000 answer));
         (lit "retrieval_time", JFloat (round3 retrieval_time));
         (lit "generation_time", JFloat (round3 gen_time));
         (lit "status", JStr status);
         (lit "source", JStr (lit "rag_query"))].

Definition log_to_elasticsearch (q answer : pystr) (retrieval_time gen_time : F)
    (status : pystr) : sio unit :=
  now ← run_base W (λ E, utcnow_isoformat E);
  let log_entry := log_entry_of now q answer retrieval_time gen_time status in
  say DebugAttempt;;
  say (DebugUrl RagQuery.ELASTIC_DOC_URL);;
  say (DebugPayload (slice_to 500 (dumps_indented float_repr 2 0 log_entry)));;
  try_any
    (res ← run_base W (λ E,
       RagQuery._post_json_with_retries float_repr E
         RagQuery.ELASTIC_DOC_URL log_entry 3 (1 # 2));
     say (DebugResponse (status_code res));;
     if in_200_201 (status_code res) then say LoggedOk
     else say (LogFailed (status_code res) (slice_to 300 (text res))))
    (λ e, say (LogGaveUp e)).
End Code.

End World.
Arguments call : clear implicits.
Arguments step : clear implicits.
Arguments world : clear implicits.
Arguments sio : clear implicits.

End Service.

(** ** What the further statements are written with *)

(** How often a code point occurs in a string. *)
Definition occurrences (c : N) (s : pystr) : nat := length (filter (λ x, x = c) s).

(** A string of printable ASCII. *)
Definition printable (s : pystr) : Prop := Forall (λ c, 32 ≤ c ≤ 126) s.

Section MoreTraces.
Context {F : Type}.

(** The GET requests of a trace, by URL, with what became of each. *)
Definition gets (tr : list (event F)) : list (pystr * outcome) :=
  omap (λ ev, match ev with
              | Http (GET url _) out => Some (url, out)
              | _ => None
              end) tr.

(** An outcome [main] goes on to parse and push. *)
Definition answered_200 (out : outcome) : bool :=
  match out with
  | Returns r => (status_code r =? 200)%Z
  | Fails _ => false
  end.

(** A post that carries the document of one of the sources. *)
Definition of_sources (endpoints : list pystr) (p : request F * outcome) : Prop :=
  ∃ doc url, p.1 = sink_request doc ∧ url ∈ endpoints ∧
             Bridge.service_name_of url = Ok (service doc).

(** What a run of the retry loop leaves behind for the exceptions of its
    failed attempts: each attempt, then its sleep. *)
Fixpoint failed_attempts (req : request F) (backoff : Q) (turn : Z) (es : list exn)
  : list (event F) :=
  match es with
  | [] => []
  | e :: es' =>
      Http req (Fails e) :: Slept (Float.mul backoff (Float.of_int (turn + 1))) ::
      failed_attempts req backoff (turn + 1) es'
  end.
End MoreTraces.

Section ServiceTraces.
Context {F : Type}.

(** An answer that tells the index is there: 200 to the GET, 200 or 201 to
    the PUT. *)
Definition index_ready (p : Service.call F * outcome) : bool :=
  match p with
  | (Service.Get _ _, Returns r) => (status_code r =? 200)%Z
  | (Service.Put _ _ _, Returns r) => in_200_201 (status_code r)
  | (_, Fails _) => false
  end.

(** An outcome of the GET after which the index check goes on to the PUT. *)
Definition get_inconclusive (out : outcome) : Prop :=
  match out with
  | Returns r => status_code r ≠ 200%Z
  | Fails e => Service.is_request_exception e = true
  end.

(** The lines the logger ends with, for the outcome of its last attempt. *)
Definition log_report (out : outcome) : list (@Service.note) :=
  match out with
  | Returns r =>
      [Service.DebugResponse (status_code r);
       if in_200_201 (status_code r) then Service.LoggedOk
       else Service.LogFailed (status_code r) (slice_to 300 (text r))]
  | Fails e => [Service.LogGaveUp e]
  end.
End ServiceTraces.

(** ** Further scenarios *)

(** An endpoint written without scheme and port. *)
Definition bare_endpoint : pystr := lit "localhost/metrics".

Definition chunk_sample : pystr := lit "  a bb   c dd e ".

(** Elasticsearch refuses the index calls; the log sink answers 503, 503
    and then 201. *)
Definition log_sink_503 : Service.world Z :=
  {| Service.answers := λ _ _, Fails ConnectionError;
     Service.base_env := λ _, sink_503_503_201 |}.

(** * Theorems *)

(** ** Strings *)

Section StringFacts.
Implicit Types (s l w ws : pystr) (c : N).

Lemma startswith_nil s : Str.startswith s [] = true.
Proof. by destruct s. Qed.

Lemma startswith_hash l : Str.startswith l (lit "#") = true ↔ head l = Some 35.
Proof.
  change (lit "#") with [35]. destruct l as [|c l]; cbn [Str.startswith head]; [done|].
  rewrite startswith_nil, andb_true_r, N.eqb_eq.
  split; [by intros ->|by intros [= ->]].
Qed.

Lemma contains_brace l : Str.contains (lit "{") l = true ↔ 123 ∈ l.
Proof.
  change (lit "{") with [123]. induction l as [|c l IH].
  - simpl. split; [done|]. by intros ?%elem_of_nil.
  - cbn [Str.contains Str.startswith].
    rewrite startswith_nil, andb_true_r, orb_true_iff, IH, elem_of_cons, N.eqb_eq.
    done.
Qed.

(** *** Whitespace and tokens *)

Lemma split_blank ws : blank ws → Str.split ws = [].
Proof. induction 1 as [|c ws Hc _ IH]; [done|]. simpl. by rewrite Hc. Qed.

Lemma split_blank_app ws s : blank ws → Str.split (ws ++ s) = Str.split s.
Proof. induction 1 as [|c ws Hc _ IH]; [done|]. simpl. by rewrite Hc. Qed.

Lemma split_app_blank s ws : blank ws → Str.split (s ++ ws) = Str.split s.
Proof.
  intros Hws. induction s as [|c s IH]; [by apply split_blank|].
  simpl. destruct (Str.isspace c); [done|].
  destruct s as [|c' s].
  - destruct Hws as [|c' ws Hc' Hws]; [done|]. simpl. rewrite Hc'.
    by rewrite split_blank.
  - rewrite <- app_comm_cons in *. rewrite IH. done.
Qed.

Lemma split_token_app w s :
  token w → at_boundary s → Str.split (w ++ s) = w :: Str.split s.
Proof.
  intros [Hne Hw] Hs. induction Hw as [|c w Hc Hw IH]; [done|].
  cbn [app Str.split]. rewrite Hc.
  destruct w as [|c' w].
  - destruct s as [|c' s]; simpl in *; [done|]. by rewrite Hs.
  - specialize (IH ltac:(done)). cbn [app] in *.
    inversion Hw as [|?? Hc' _]; subst. by rewrite Hc', IH.
Qed.

Lemma lstrip_split s : Str.split (Str.lstrip s) = Str.split s.
Proof. induction s as [|c s IH]; [done|]. simpl. by destruct (Str.isspace c) eqn:Hc; [|simpl; rewrite Hc]. Qed.

Lemma lstrip_decompose s : ∃ ws, blank ws ∧ s = ws ++ Str.lstrip s.
Proof.
  induction s as [|c s (ws & Hws & Hs)]; [by exists []; split; [constructor|]|].
  simpl. destruct (Str.isspace c) eqn:Hc.
  - exists (c :: ws). split; [by constructor|]. simpl. by f_equal.
  - exists []. by split; [constructor|].
Qed.

Lemma rstrip_decompose s : ∃ ws, blank ws ∧ s = Str.rstrip s ++ ws.
Proof.
  destruct (lstrip_decompose (reverse s)) as (ws & Hws & Hs).
  exists (reverse ws). split.
  - unfold blank in *. by rewrite Forall_reverse.
  - unfold Str.rstrip. rewrite <- reverse_app, <- Hs. by rewrite reverse_involutive.
Qed.

Lemma strip_split s : Str.split (Str.strip s) = Str.split s.
Proof.
  unfold Str.strip. destruct (rstrip_decompose (Str.lstrip s)) as (ws & Hws & Hs).
  rewrite <- (lstrip_split s). rewrite Hs at 2. by rewrite split_app_blank.
Qed.

Local Ltac shape :=
  split_and!;
  first [ done | by constructor | by (split; [done|constructor]) ].

(** A first token of [split] can be peeled off the string. *)
Lemma split_cons_inv s w rest :
  Str.split s = w :: rest →
  ∃ ws s', s = ws ++ w ++ s' ∧ blank ws ∧ token w ∧ at_boundary s' ∧
           Str.split s' = rest.
Proof.
  revert w rest. induction s as [|c s IH]; intros w rest; [done|].
  simpl. destruct (Str.isspace c) eqn:Hc.
  - intros (ws & s' & -> & Hws & Hw & Hs' & Hrest)%IH.
    exists (c :: ws), s'. shape.
  - destruct s as [|c' s].
    + intros [= <- <-]. exists [], []. shape.
    + destruct (Str.isspace c') eqn:Hc'.
      * intros [= <- <-]. exists [], (c' :: s). shape.
      * destruct (Str.split (c' :: s)) as [|w' ws'] eqn:Hsp.
        { intros [= <- <-]. exfalso. simpl in Hsp. rewrite Hc' in Hsp.
          destruct s as [|c'' s]; [done|].
          destruct (Str.isspace c''); [done|]. by destruct (Str.split (c'' :: s)). }
        intros [= <- <-].
        destruct (IH _ _ eq_refl) as (ws & s' & Heq & Hws & Hw & Hs' & Hrest).
        destruct ws as [|c0 ws].
        -- exists [], s'. simpl in *. rewrite Heq. destruct Hw as [_ Hw]. shape.
        -- exfalso. simpl in Heq. injection Heq as <- _.
           inversion Hws; congruence.
Qed.

Lemma split_nil_inv s : Str.split s = [] → blank s.
Proof.
  induction s as [|c s IH]; [by constructor|]. simpl.
  destruct (Str.isspace c) eqn:Hc.
  - intros ?%IH. by constructor.
  - destruct s as [|c' s]; [done|]. destruct (Str.isspace c'); [done|].
    by destruct (Str.split (c' :: s)).
Qed.

(** Exactly two tokens: the shape of a [name value] line. *)
Lemma split_two s name value :
  Str.split s = [name; value] ↔
  ∃ ws1 ws2 ws3, s = ws1 ++ name ++ ws2 ++ value ++ ws3 ∧
    blank ws1 ∧ blank ws2 ∧ ws2 ≠ [] ∧ blank ws3 ∧ token name ∧ token value.
Proof.
  split.
  - intros (ws1 & s1 & -> & Hws1 & Hname & Hb1 & Hs1)%split_cons_inv.
    destruct (split_cons_inv _ _ _ Hs1) as (ws2 & s2 & -> & Hws2 & Hvalue & Hb2 & Hs2).
    exists ws1, ws2, s2. split_and!; try done.
    + intros ->. simpl in Hb1. destruct Hvalue as [Hne Hv].
      destruct Hv as [|c v Hc _]; [done|]. simpl in Hb1. congruence.
    + by apply split_nil_inv.
  - intros (ws1 & ws2 & ws3 & -> & Hws1 & Hws2 & Hne & Hws3 & Hname & Hvalue).
    rewrite split_blank_app by done.
    rewrite split_token_app; [|done|].
    + rewrite split_blank_app by done. rewrite split_token_app; [|done|].
      * by rewrite split_blank.
      * by destruct Hws3.
    + destruct Hws2; [done|]. done.
Qed.
End StringFacts.

Section LineFacts.
Implicit Types (s l : pystr) (c : N).

Lemma splitlines_line l rest :
  single_line l → Str.splitlines (l ++ nl ++ rest) = l :: Str.splitlines rest.
Proof.
  induction 1 as [|c l Hc _ IH]; simpl.
  - destruct rest; reflexivity.
  - rewrite Hc. simpl in IH. rewrite IH. reflexivity.
Qed.

Lemma unlines_cons l (lines : list pystr) :
  unlines (l :: lines) = l ++ nl ++ unlines lines.
Proof. unfold unlines. simpl. by rewrite <- (assoc_L (++)). Qed.

Lemma unlines_app (ls1 ls2 : list pystr) :
  unlines (ls1 ++ ls2) = unlines ls1 ++ unlines ls2.
Proof.
  induction ls1 as [|l ls1 IH]; [reflexivity|].
  rewrite <- app_comm_cons, !unlines_cons, IH. by rewrite <- !(assoc_L (++)).
Qed.

Lemma splitlines_unlines (lines : list pystr) :
  Forall single_line lines → Str.splitlines (unlines lines) = lines.
Proof.
  induction 1 as [|l lines Hl _ IH]; [reflexivity|].
  rewrite unlines_cons, splitlines_line by done. by rewrite IH.
Qed.
End LineFacts.

(** ** The parser *)

Section ParserFacts.
Context {F : Type} (float : pystr → option F).
Implicit Types (line name value : pystr) (m : gmap pystr F) (v : F).

Lemma parse_line_entry m line : parse_line float m line = Ok (absorb float m line).
Proof.
  unfold parse_line, absorb, line_entry.
  destruct (_ || _); [done|]. cbn zeta. rewrite strip_split.
  destruct (Str.split line) as [|name [|value [|??]]]; try done.
  simpl. by destruct (float value).
Qed.

Lemma for_fold_parse m (lines : list pystr) :
  for_fold (parse_line float) m lines = Ok (foldl (absorb float) m lines).
Proof.
  revert m. induction lines as [|l lines IH]; intros m; [done|].
  simpl. rewrite parse_line_entry. simpl. apply IH.
Qed.

Lemma foldl_absorb m (lines : list pystr) :
  foldl (absorb float) m lines = foldl store m (omap (line_entry float) lines).
Proof.
  revert m. induction lines as [|l lines IH]; intros m; [done|].
  simpl. rewrite IH. unfold absorb. by destruct (line_entry float l).
Qed.

Lemma line_entry_well_formed line name v :
  line_entry float line = Some (name, v) ↔ well_formed float line name v.
Proof.
  unfold line_entry, well_formed. split.
  - destruct (Str.startswith _ _) eqn:Hs; [done|].
    destruct (Str.contains _ _) eqn:Hc; [done|]. simpl.
    destruct (Str.split line) as [|n [|val [|??]]] eqn:Hsp; try done.
    destruct (float val) as [v'|] eqn:Hf; [|done]. intros [= <- <-].
    apply split_two in Hsp as (ws1 & ws2 & ws3 & ? & ? & ? & ? & ? & ? & ?).
    exists ws1, ws2, ws3, val. split_and!; try done.
    + rewrite <- startswith_hash. congruence.
    + rewrite <- contains_brace. congruence.
  - intros (ws1 & ws2 & ws3 & value & Hl & ? & ? & ? & ? & ? & ? & Hh & Hb & Hf).
    rewrite <- startswith_hash in Hh. rewrite <- contains_brace in Hb.
    destruct (Str.startswith _ _); [done|]. destruct (Str.contains _ _); [done|].
    simpl. rewrite (proj2 (split_two line name value)) by eauto 10.
    by rewrite Hf.
Qed.

Lemma line_entry_skipped line : line_entry float line = None ↔ skipped float line.
Proof.
  unfold line_entry, skipped.
  rewrite <- startswith_hash, <- contains_brace.
  destruct (Str.startswith _ _); [by split; auto|].
  destruct (Str.contains _ _); [by split; auto|]. simpl.
  destruct (Str.split line) as [|n [|val [|??]]] eqn:Hsp; simpl;
    try (split; [auto|done]).
  destruct (float val) eqn:Hf; simpl; split; try done; eauto 10.
  intros [|[|[|(?&?&[= <- <-]&?)]]]; congruence.
Qed.

Lemma classified_entry line (k : line_class F) :
  classified float line k ↔
  line_entry float line =
    match k with Sample name v => Some (name, v) | Malformed => None end.
Proof.
  destruct k as [name v|]; simpl.
  - symmetry. apply line_entry_well_formed.
  - split.
    + intros Hno. destruct (line_entry float line) as [[name v]|] eqn:He; [|done].
      apply line_entry_well_formed in He. by destruct (Hno name v).
    + intros He name v Hwf%line_entry_well_formed. congruence.
Qed.

Lemma entries_samples (lines : list pystr) (ks : list (line_class F)) :
  Forall2 (classified float) lines ks →
  omap (line_entry float) lines = samples ks.
Proof.
  induction 1 as [|l k lines ks Hk _ IH]; [done|].
  cbn [omap list_omap samples]. apply classified_entry in Hk.
  rewrite Hk. fold (omap (line_entry float) lines). rewrite IH.
  by destruct k.
Qed.

Lemma parse_lines text :
  parse_prometheus_metrics float text =
    Ok (foldl store ∅ (omap (line_entry float) (Str.splitlines text))).
Proof.
  unfold parse_prometheus_metrics. by rewrite for_fold_parse, foldl_absorb.
Qed.
End ParserFacts.

(** *** Last write wins *)

Section StoreFacts.
Context {F : Type}.
Implicit Types (name : pystr) (m : gmap pystr F).

Lemma lookup_foldl_store m (es : list (pystr * F)) name :
  foldl store m es !! name =
    match last (filter (λ s, s.1 = name) es) with
    | Some s => Some s.2
    | None => m !! name
    end.
Proof.
  induction es as [|[n v] es IH] using rev_ind; [done|].
  rewrite foldl_app, filter_app. cbn [foldl]. unfold store at 1. cbn [fst snd].
  rewrite filter_cons, filter_nil. cbn [fst]. case_decide as Hn.
  - subst. by rewrite last_snoc, lookup_insert_eq.
  - rewrite app_nil_r, lookup_insert_ne by done. apply IH.
Qed.

Lemma dom_foldl_store m (es : list (pystr * F)) :
  dom (foldl store m es) = list_to_set es.*1 ∪ dom m.
Proof.
  revert m. induction es as [|[n v] es IH]; intros m; simpl.
  - set_solver.
  - rewrite IH. unfold store. rewrite dom_insert_L. set_solver.
Qed.

Lemma size_list_to_set_dups (l : list pystr) :
  size (list_to_set (C:=gset pystr) l) = length (remove_dups l).
Proof.
  rewrite <- (size_list_to_set (C:=gset pystr)) by apply NoDup_remove_dups.
  f_equal. apply set_eq. intros x.
  by rewrite !elem_of_list_to_set, elem_of_remove_dups.
Qed.

Lemma size_foldl_store (es : list (pystr * F)) :
  size (foldl store ∅ es) = length (remove_dups es.*1).
Proof.
  transitivity (size (dom (foldl store ∅ es))); [symmetry; apply size_dom|].
  rewrite dom_foldl_store, dom_empty_L, (right_id_L ∅ (∪)).
  apply size_list_to_set_dups.
Qed.
End StoreFacts.

Lemma NoDup_remove_dups_same {A} `{EqDecision A} (l : list A) :
  NoDup l → remove_dups l = l.
Proof.
  induction 1 as [|x l Hx _ IH]; [done|].
  simpl. destruct (decide_rel elem_of x l); [done|by f_equal].
Qed.

Section ParserTheorems.
Context {F : Type} (float : pystr → option F).


End ParserTheorems.




Example sample_text_parse :
  parse_prometheus_metrics Decimal.float (unlines sample_text) =
    Ok {[ lit "up" := Decimal.Finite 0; lit "latency" := Decimal.Finite (1 # 4) ]}.
Proof. vm_compute. reflexivity. Qed.

Lemma scenario_parse :
  parse_prometheus_metrics Decimal.float scenario_text = Ok scenario_metrics.
Proof. vm_compute. reflexivity. Qed.

(** ** Floats *)

Section FloatFacts.
Local Open Scope Q_scope.
Implicit Types (x y b : Q) (e k m z : Z).

Lemma two_neq_0 : ¬ 2 == 0.
Proof. discriminate. Qed.

Lemma pow2_pos e : 0 < 2 ^ e.
Proof. apply Qpower_0_lt. reflexivity. Qed.

Lemma pow2_add a c : 2 ^ (a + c) == 2 ^ a * 2 ^ c.
Proof. apply Qpower_plus, two_neq_0. Qed.

Lemma pow2_cancel e : 2 ^ (- e) * 2 ^ e == 1.
Proof. rewrite <- pow2_add. by replace (- e + e)%Z with 0%Z by lia. Qed.

Lemma pow2_le a c : (a ≤ c)%Z → 2 ^ a <= 2 ^ c.
Proof. intros H. apply Qpower_le_compat_l; [done|discriminate]. Qed.

Lemma pow2_lt_inv a c : 2 ^ a < 2 ^ c → (a < c)%Z.
Proof. intros H. by apply (Qpower_lt_compat_l_inv 2). Qed.

Lemma pow2_Z n : (0 ≤ n)%Z → inject_Z (2 ^ n) == 2 ^ n.
Proof. intros H. by apply Zpower_Qpower. Qed.

Lemma log2_bounds (n : Z) :
  (0 < n)%Z →
  2 ^ Z.log2 n <= inject_Z n ∧ inject_Z n < 2 ^ (Z.log2 n + 1).
Proof.
  intros Hn. pose proof (Z.log2_spec n Hn) as [Hlo Hhi].
  pose proof (Z.log2_nonneg n) as H0.
  rewrite <- !pow2_Z by lia. rewrite <- Zle_Qle, <- Zlt_Qlt.
  split; [exact Hlo|]. by replace (Z.log2 n + 1)%Z with (Z.succ (Z.log2 n)) by lia.
Qed.

(** [ilog2 x] is the exponent of the power of two at or below [x]. *)
Lemma ilog2_spec x :
  0 < x → 2 ^ Float.ilog2 x <= x ∧ x < 2 ^ (Float.ilog2 x + 1).
Proof.
  intros Hx. destruct x as [n d]. assert (0 < n)%Z as Hn.
  { unfold Qlt in Hx. simpl in Hx. lia. }
  unfold Float.ilog2. cbn [Qnum Qden].
  destruct (log2_bounds n Hn) as [Hn1 Hn2].
  destruct (log2_bounds (Zpos d) ltac:(done)) as [Hd1 Hd2].
  set (a := Z.log2 n) in *. set (c := Z.log2 (Zpos d)) in *.
  assert (0 < inject_Z (Zpos d)) as Hd0 by (by rewrite <- (Zlt_Qlt 0)).
  destruct (Qle_bool (2 ^ (a - c)) (n # d)) eqn:Htest; rewrite (Qmake_Qdiv n d).
  - apply Qle_bool_iff in Htest. rewrite (Qmake_Qdiv n d) in Htest.
    split; [exact Htest|]. apply Qlt_shift_div_r; [done|].
    eapply Qlt_le_trans; [exact Hn2|].
    replace (a + 1)%Z with ((a - c + 1) + c)%Z by lia. rewrite pow2_add.
    apply Qmult_le_l; [apply pow2_pos|done].
  - assert (¬ 2 ^ (a - c) <= n # d) as Hnot.
    { intros H%Qle_bool_iff. congruence. }
    apply Qnot_le_lt in Hnot. rewrite (Qmake_Qdiv n d) in Hnot.
    replace (a - c - 1 + 1)%Z with (a - c)%Z by lia. split; [|done].
    apply Qle_shift_div_l; [done|].
    eapply Qle_trans; [|exact Hn1].
    replace a with ((a - c - 1) + (c + 1))%Z at 2 by lia. rewrite pow2_add.
    apply Qmult_le_l; [apply pow2_pos|]. by apply Qlt_le_weak.
Qed.

Lemma ilog2_unique x E :
  0 < x → 2 ^ E <= x → x < 2 ^ (E + 1) → Float.ilog2 x = E.
Proof.
  intros Hx Hlo Hhi. destruct (ilog2_spec x Hx) as [Hlo' Hhi'].
  assert (2 ^ E < 2 ^ (Float.ilog2 x + 1)) as H1%pow2_lt_inv
    by (eapply Qle_lt_trans; eauto).
  assert (2 ^ Float.ilog2 x < 2 ^ (E + 1)) as H2%pow2_lt_inv
    by (eapply Qle_lt_trans; eauto).
  lia.
Qed.

Lemma floor_bounds y :
  inject_Z (Qfloor y) <= y ∧ y < inject_Z (Qfloor y) + 1.
Proof.
  split; [apply Qfloor_le|]. pose proof (Qlt_floor y) as H.
  by rewrite inject_Z_plus in H.
Qed.

(** The nearest integer is at most one half away. *)
Lemma nearest_even_spec y :
  inject_Z (Float.nearest_even y) - y <= 1 # 2 ∧
  y - inject_Z (Float.nearest_even y) <= 1 # 2.
Proof.
  unfold Float.nearest_even. destruct (floor_bounds y) as [Hlo Hhi].
  set (q := Qfloor y) in *.
  destruct (Qcompare (y - inject_Z q) (1 # 2)) eqn:Hcmp.
  - apply Qeq_alt in Hcmp.
    destruct (Z.even q); rewrite ?inject_Z_plus; change (inject_Z 1) with 1; split; lra.
  - apply Qlt_alt in Hcmp. split; lra.
  - apply Qgt_alt in Hcmp. rewrite inject_Z_plus. change (inject_Z 1) with 1. split; lra.
Qed.

Lemma nearest_even_int y z : y == inject_Z z → Float.nearest_even y = z.
Proof.
  intros Hy. unfold Float.nearest_even.
  assert (Qfloor y = z) as -> by (by rewrite Hy, Qfloor_Z).
  destruct (Qcompare (y - inject_Z z) (1 # 2)) eqn:Hcmp; [|done|].
  - apply Qeq_alt in Hcmp. lra.
  - apply Qgt_alt in Hcmp. lra.
Qed.

Lemma nearest_even_nonneg y : 0 <= y → (0 ≤ Float.nearest_even y)%Z.
Proof.
  intros Hy. unfold Float.nearest_even.
  pose proof (Qfloor_resp_le 0 y Hy) as H0. change (Qfloor 0) with 0%Z in H0.
  destruct (Qcompare _ _); [destruct (Z.even _)|..]; lia.
Qed.

Lemma spacing_cases x :
  (Float.spacing x = (Float.ilog2 x - 52)%Z ∧ (Float.emin ≤ Float.ilog2 x - 52)%Z) ∨
  (Float.spacing x = Float.emin ∧ (Float.ilog2 x - 52 < Float.emin)%Z).
Proof. unfold Float.spacing. lia. Qed.

Lemma spacing_emin x : (Float.emin ≤ Float.spacing x)%Z.
Proof. unfold Float.spacing. lia. Qed.

(** Rounding moves a positive number by at most half the spacing. *)
Lemma round_pos_err x :
  Float.round_pos x - x <= 2 ^ Float.spacing x * (1 # 2) ∧
  x - Float.round_pos x <= 2 ^ Float.spacing x * (1 # 2).
Proof.
  unfold Float.round_pos. set (e := Float.spacing x).
  destruct (nearest_even_spec (x * 2 ^ (- e))) as [Hup Hdown].
  set (m := inject_Z (Float.nearest_even (x * 2 ^ (- e)))) in *.
  pose proof (pow2_pos e) as He. pose proof (pow2_cancel e) as Hc.
  assert (x == x * 2 ^ (- e) * 2 ^ e) as Hx by (rewrite <- Qmult_assoc, Hc; ring).
  split.
  - apply (Qmult_le_compat_r _ _ (2 ^ e)) in Hup; [|by apply Qlt_le_weak]. lra.
  - apply (Qmult_le_compat_r _ _ (2 ^ e)) in Hdown; [|by apply Qlt_le_weak]. lra.
Qed.

(** What lies on the grid of its spacing is not moved. *)
Lemma round_pos_exact x z :
  x * 2 ^ (- Float.spacing x) == inject_Z z → Float.round_pos x == x.
Proof.
  intros Hy. unfold Float.round_pos. rewrite (nearest_even_int _ z Hy), <- Hy.
  rewrite <- Qmult_assoc, pow2_cancel. ring.
Qed.

(** Above the subnormal range the error is relative. *)
Lemma round_pos_rel x :
  0 < x → (Float.emin ≤ Float.ilog2 x - 52)%Z →
  Float.round_pos x <= x * (1 + Float.unit_roundoff) ∧
  x * (1 - Float.unit_roundoff) <= Float.round_pos x.
Proof.
  intros Hx Hnormal. destruct (round_pos_err x) as [Hup Hdown].
  destruct (ilog2_spec x Hx) as [Hlo _].
  destruct (spacing_cases x) as [[He _]|[_ ?]]; [|lia]. rewrite He in Hup, Hdown.
  assert (2 ^ (Float.ilog2 x - 52) * (1 # 2) == 2 ^ Float.ilog2 x * Float.unit_roundoff)
    as Hhalf.
  { unfold Float.unit_roundoff.
    replace (Float.ilog2 x - 52)%Z with (Float.ilog2 x + (-52))%Z by lia.
    rewrite pow2_add.
    assert (2 ^ (-52) * (1 # 2) == 2 ^ (-53)) as Hu by reflexivity.
    rewrite <- Hu. ring. }
  rewrite Hhalf in Hup, Hdown.
  assert (0 < Float.unit_roundoff) as Hu by reflexivity.
  assert (2 ^ Float.ilog2 x * Float.unit_roundoff <= x * Float.unit_roundoff) as Hle
    by (apply Qmult_le_compat_r; [done|by apply Qlt_le_weak]).
  split; lra.
Qed.

Lemma round_pos_nonneg x : 0 <= x → 0 <= Float.round_pos x.
Proof.
  intros Hx. unfold Float.round_pos. apply Qmult_le_0_compat.
  - change 0 with (inject_Z 0). rewrite <- Zle_Qle. apply nearest_even_nonneg.
    apply Qmult_le_0_compat; [done|]. apply Qlt_le_weak, pow2_pos.
  - apply Qlt_le_weak, pow2_pos.
Qed.

(** Rounding does not tell two fractions of one value apart. *)
Lemma round_comp x y : x == y → Float.round x = Float.round y.
Proof. intros H. unfold Float.round. by rewrite (Qred_complete x y H). Qed.

Lemma round_of_pos x : 0 < x → Float.round x == Float.round_pos (Qred x).
Proof.
  intros Hx. unfold Float.round.
  assert (Qcompare (Qred x) 0 = Gt) as -> by (apply Qgt_alt; by rewrite Qred_correct).
  apply Qred_correct.
Qed.

Lemma round_of_neg x : x < 0 → Float.round x == - Float.round_pos (Qred (- x)).
Proof.
  intros Hx. unfold Float.round.
  assert (Qcompare (Qred x) 0 = Lt) as -> by (apply Qlt_alt; by rewrite Qred_correct).
  by rewrite Qred_correct, Qred_opp.
Qed.

Lemma round_of_0 x : x == 0 → Float.round x = 0.
Proof.
  intros Hx. unfold Float.round.
  by assert (Qcompare (Qred x) 0 = Eq) as -> by (apply Qeq_alt; by rewrite Qred_correct).
Qed.

Lemma round_opp x : Float.round (- x) == - Float.round x.
Proof.
  destruct (Q_dec x 0) as [[Hneg|Hpos]|Hzero].
  - rewrite (round_of_pos (- x)) by lra. rewrite (round_of_neg x) by done. ring.
  - rewrite (round_of_neg (- x)) by lra. rewrite (round_of_pos x) by done.
    by rewrite (Qred_complete (- - x) x) by ring.
  - rewrite (round_of_0 x) by done. rewrite (round_of_0 (- x)) by lra. reflexivity.
Qed.

Lemma round_nonneg x : 0 <= x → 0 <= Float.round x.
Proof.
  intros Hx. destruct (Qle_lt_or_eq _ _ Hx) as [Hpos|Hzero].
  - rewrite round_of_pos by done. apply round_pos_nonneg. by rewrite Qred_correct.
  - rewrite round_of_0 by done. apply Qle_refl.
Qed.

(** A double is not moved by rounding. *)
Lemma round_exact_pos x m e :
  (0 < m < 2 ^ 53)%Z → (Float.emin ≤ e)%Z → x == inject_Z m * 2 ^ e →
  Float.round_pos x == x.
Proof.
  intros Hm He Hx.
  assert (0 < x) as Hpos.
  { rewrite Hx. apply Qmult_lt_0_compat; [|apply pow2_pos].
    change 0 with (inject_Z 0). rewrite <- Zlt_Qlt. lia. }
  destruct (ilog2_spec x Hpos) as [Hlo _].
  assert (x < 2 ^ (53 + e)) as Hhi.
  { rewrite Hx, pow2_add. apply Qmult_lt_compat_r; [apply pow2_pos|].
    rewrite <- pow2_Z by done. rewrite <- Zlt_Qlt. lia. }
  assert (Float.ilog2 x < 53 + e)%Z as Hlog
    by (apply pow2_lt_inv; eapply Qle_lt_trans; eauto).
  assert (Float.spacing x ≤ e)%Z as Hs by (unfold Float.spacing; lia).
  apply (round_pos_exact x (m * 2 ^ (e - Float.spacing x))).
  set (s := Float.spacing x) in *.
  rewrite inject_Z_mult, pow2_Z by lia. rewrite Hx.
  replace (e - s)%Z with (e + - s)%Z by lia.
  rewrite pow2_add. ring.
Qed.

Lemma round_exact x : Float.is_float x → Float.round x == x.
Proof.
  intros (m & e & Hm & He & Hx).
  destruct (Z.lt_trichotomy m 0) as [Hneg|[->|Hpos]].
  - assert (- x == inject_Z (- m) * 2 ^ e) as Hx' by (rewrite inject_Z_opp, Hx; ring).
    assert (0 < - x) as Hpos.
    { rewrite Hx'. apply Qmult_lt_0_compat; [|apply pow2_pos].
      change 0 with (inject_Z 0). rewrite <- Zlt_Qlt. lia. }
    rewrite round_of_neg by lra.
    rewrite (round_exact_pos (Qred (- x)) (- m) e) by (rewrite ?Qred_correct; (done || lia)).
    rewrite Qred_correct. ring.
  - rewrite round_of_0; rewrite Hx; ring.
  - assert (0 < x) as Hpos'.
    { rewrite Hx. apply Qmult_lt_0_compat; [|apply pow2_pos].
      change 0 with (inject_Z 0). rewrite <- Zlt_Qlt. lia. }
    rewrite round_of_pos by done.
    rewrite (round_exact_pos (Qred x) m e) by (rewrite ?Qred_correct; (done || lia)).
    apply Qred_correct.
Qed.

Lemma is_float_comp x y : x == y → Float.is_float x → Float.is_float y.
Proof. intros H (m & e & ? & ? & Hx). exists m, e. by rewrite <- H. Qed.

Lemma is_float_double b : Float.is_float b → Float.is_float (b * 2).
Proof.
  intros (m & e & Hm & He & Hx). exists m, (e + 1)%Z.
  split; [done|]. split; [lia|]. rewrite Hx, pow2_add. ring.
Qed.

Lemma is_float_int k : (Z.abs k ≤ 2 ^ 53)%Z → Float.is_float (inject_Z k).
Proof.
  intros Hk. destruct (Z.eq_dec (Z.abs k) (2 ^ 53)%Z) as [Hmax|Hless].
  - change (2 ^ 53)%Z with 9007199254740992%Z in *.
    assert (k = 9007199254740992 ∨ k = -9007199254740992)%Z as [-> | ->] by lia.
    + by exists (2 ^ 52)%Z, 1%Z.
    + by exists (- 2 ^ 52)%Z, 1%Z.
  - exists k, 0%Z. split; [lia|]. split; [done|]. change (2 ^ 0) with 1. ring.
Qed.

(** An [int] of up to 53 bits becomes the float of its value. *)
Lemma of_int_exact k : (Z.abs k ≤ 2 ^ 53)%Z → Float.of_int k == inject_Z k.
Proof. intros Hk. by apply round_exact, is_float_int. Qed.

(** Every double is a multiple of the smallest one. *)
Lemma is_float_grid b : Float.is_float b → ∃ z, b == inject_Z z * 2 ^ Float.emin.
Proof.
  intros (m & e & _ & He & Hx). exists (m * 2 ^ (e - Float.emin))%Z.
  rewrite inject_Z_mult, pow2_Z by lia. rewrite Hx.
  replace e with ((e - Float.emin) + Float.emin)%Z at 1 by lia.
  rewrite pow2_add. ring.
Qed.

(** The product of a float that is not negative and a small [int] lies
    above the exact product by no more than one part in [2^53]. *)
Lemma mul_int_upper b k :
  Float.is_float b → 0 <= b → (1 ≤ k ≤ 2 ^ 53)%Z →
  Float.mul b (Float.of_int k) <= b * inject_Z k * (1 + Float.unit_roundoff).
Proof.
  intros Hfloat Hb Hk. unfold Float.mul.
  rewrite (round_comp _ (b * inject_Z k)) by (rewrite of_int_exact by lia; reflexivity).
  assert (0 < inject_Z k) as Hk0 by (change 0 with (inject_Z 0); rewrite <- Zlt_Qlt; lia).
  assert (0 < Float.unit_roundoff) as Hu by reflexivity.
  destruct (Qle_lt_or_eq _ _ Hb) as [Hpos|Hzero].
  - assert (0 < b * inject_Z k) as Hx by (by apply Qmult_lt_0_compat).
    rewrite round_of_pos by done.
    set (x := Qred (b * inject_Z k)).
    assert (x == b * inject_Z k) as Hxx by apply Qred_correct.
    assert (0 < x) as Hx' by (by rewrite Hxx).
    rewrite <- Hxx.
    destruct (spacing_cases x) as [[_ Hnormal]|[Hsub _]].
    + by apply round_pos_rel.
    + destruct (is_float_grid b Hfloat) as (z & Hz).
      rewrite (round_pos_exact x (z * k)).
      * assert (0 <= x * Float.unit_roundoff)
          by (apply Qmult_le_0_compat; by apply Qlt_le_weak).
        lra.
      * rewrite Hsub, Hxx, Hz, inject_Z_mult.
        transitivity (inject_Z z * inject_Z k * (2 ^ (- Float.emin) * 2 ^ Float.emin));
          [ring|]. rewrite pow2_cancel. ring.
  - rewrite round_of_0 by (rewrite <- Hzero; ring). rewrite <- Hzero. lra.
Qed.

Lemma mul_int_nonneg b k : 0 <= b → (0 ≤ k)%Z → 0 <= Float.mul b (Float.of_int k).
Proof.
  intros Hb Hk. apply round_nonneg, Qmult_le_0_compat; [done|].
  apply round_nonneg. change 0 with (inject_Z 0). by rewrite <- Zle_Qle.
Qed.

(** Products by one and by two are exact. *)
Lemma mul_one b : Float.is_float b → Float.mul b (Float.of_int 1) == b.
Proof.
  intros Hb. unfold Float.mul.
  rewrite (round_comp _ b) by (rewrite of_int_exact by done; ring).
  by apply round_exact.
Qed.

Lemma mul_two b : Float.is_float b → Float.mul b (Float.of_int 2) == b * 2.
Proof.
  intros Hb. unfold Float.mul.
  rewrite (round_comp _ (b * 2)) by (rewrite of_int_exact by done; reflexivity).
  by apply round_exact, is_float_double.
Qed.

Lemma is_float_opp x : Float.is_float x → Float.is_float (- x).
Proof.
  intros (m & e & Hm & He & Hx). exists (- m)%Z, e.
  split; [lia|]. split; [done|]. rewrite inject_Z_opp, Hx. ring.
Qed.

Lemma round_pos_is_float x : 0 < x → Float.is_float (Float.round_pos x).
Proof.
  intros Hx. unfold Float.round_pos.
  destruct (ilog2_spec x Hx) as [_ Hhi].
  pose proof (spacing_emin x) as Hmin.
  assert (Float.ilog2 x + 1 - Float.spacing x ≤ 53)%Z as Hs
    by (unfold Float.spacing; lia).
  set (s := Float.spacing x) in *. set (y := x * 2 ^ (- s)).
  assert (0 <= y) as Hy0
    by (apply Qmult_le_0_compat; apply Qlt_le_weak; [done|apply pow2_pos]).
  assert (y < 2 ^ 53) as Hy.
  { eapply Qlt_le_trans; [|apply (pow2_le _ _ Hs)].
    replace (Float.ilog2 x + 1 - s)%Z with ((Float.ilog2 x + 1) + - s)%Z by lia.
    rewrite pow2_add. apply Qmult_lt_compat_r; [apply pow2_pos|done]. }
  pose proof (nearest_even_nonneg y Hy0) as Hm0.
  destruct (nearest_even_spec y) as [Hup _].
  set (m := Float.nearest_even y) in *.
  assert (m ≤ 2 ^ 53)%Z as Hm.
  { apply Z.lt_succ_r. rewrite Zlt_Qlt. unfold Z.succ.
    rewrite inject_Z_plus, pow2_Z by done. change (inject_Z 1) with 1. lra. }
  destruct (Z.eq_dec m (2 ^ 53)%Z) as [->|Hless].
  - exists (2 ^ 52)%Z, (s + 1)%Z. split; [done|]. split; [lia|].
    rewrite pow2_add. change (inject_Z (2 ^ 53)) with (inject_Z (2 ^ 52) * 2 ^ 1). ring.
  - exists m, s. split; [lia|]. split; [done|reflexivity].
Qed.

(** Rounding yields doubles, and so do the operations. *)
Lemma round_is_float x : Float.is_float (Float.round x).
Proof.
  destruct (Q_dec x 0) as [[Hneg|Hpos]|Hzero].
  - apply (is_float_comp (- Float.round_pos (Qred (- x))));
      [symmetry; by apply round_of_neg|].
    apply is_float_opp, round_pos_is_float. rewrite Qred_correct. lra.
  - apply (is_float_comp (Float.round_pos (Qred x)));
      [symmetry; by apply round_of_pos|].
    apply round_pos_is_float. by rewrite Qred_correct.
  - rewrite round_of_0 by done. by exists 0%Z, 0%Z.
Qed.
End FloatFacts.

(** ** The retry helper *)

Section TraceFacts.
Context {F : Type}.
Implicit Types (tr : list (event F)).

Lemma posts_app tr1 tr2 : posts (tr1 ++ tr2) = posts tr1 ++ posts tr2.
Proof. apply omap_app. Qed.
Lemma failures_app tr1 tr2 : failures (tr1 ++ tr2) = failures tr1 ++ failures tr2.
Proof. apply omap_app. Qed.
Lemma sleeps_app tr1 tr2 : sleeps (tr1 ++ tr2) = sleeps tr1 ++ sleeps tr2.
Proof. apply omap_app. Qed.
End TraceFacts.

Lemma total_app (ds1 ds2 : list Q) : (total (ds1 ++ ds2) == total ds1 + total ds2)%Q.
Proof.
  induction ds1 as [|d ds1 IH]; simpl.
  - by rewrite Qplus_0_l.
  - rewrite IH. apply Qplus_assoc.
Qed.

Lemma turn_weights_seq (k n : nat) :
  (2 * turn_weights (Z.of_nat <$> seq k n) = Z.of_nat n * (2 * Z.of_nat k + Z.of_nat n + 1))%Z.
Proof.
  revert k. induction n as [|n IH]; intros k; [simpl; lia|].
  cbn [seq fmap list_fmap turn_weights foldr].
  change (foldr _ _ ?l) with (turn_weights l).
  specialize (IH (S k)). change (list_fmap _ _ ?f ?l) with (f <$> l). lia.
Qed.

Lemma turn_weights_range (n : Z) :
  (0 ≤ n)%Z → (2 * turn_weights (range n) = n * (n + 1))%Z.
Proof. intros Hn. unfold range. rewrite turn_weights_seq. lia. Qed.

Section RetryFacts.
Context {F : Type} (float_repr : F → pystr) (E : env F).
Implicit Types (url : pystr) (payload : json F) (backoff : Q) (tr : list (event F)).

Lemma retry_loop_nil url payload backoff last_exc tr :
  RagQuery.retry_loop float_repr E url payload backoff [] last_exc tr =
    (Raise (default TypeError last_exc), tr).
Proof. by destruct last_exc. Qed.

Lemma retry_loop_returns url payload backoff i turns last_exc tr r :
  net E tr (retry_request float_repr url payload) = Returns r →
  RagQuery.retry_loop float_repr E url payload backoff (i :: turns) last_exc tr =
    (Ok r, tr ++ [Http (retry_request float_repr url payload) (Returns r)]).
Proof.
  intros Hnet. cbn [RagQuery.retry_loop].
  unfold mbind, io_bind, try_except, requests_post, http.
  fold (retry_request float_repr url payload). by rewrite Hnet.
Qed.

Lemma retry_loop_fails url payload backoff i turns last_exc tr e :
  net E tr (retry_request float_repr url payload) = Fails e →
  Qle_bool 0 (Float.mul backoff (Float.of_int (i + 1))) = true →
  RagQuery.retry_loop float_repr E url payload backoff (i :: turns) last_exc tr =
    RagQuery.retry_loop float_repr E url payload backoff turns (Some e)
      (tr ++ [Http (retry_request float_repr url payload) (Fails e);
              Slept (Float.mul backoff (Float.of_int (i + 1)))]).
Proof.
  intros Hnet Hd. cbn [RagQuery.retry_loop].
  unfold mbind, io_bind, try_except, requests_post, http, sleep.
  fold (retry_request float_repr url payload). rewrite Hnet, Hd.
  unfold emit. cbn [mret io_ret]. by rewrite <- (assoc_L (++)).
Qed.

Lemma retry_loop_sleep_raises url payload backoff i turns last_exc tr e :
  net E tr (retry_request float_repr url payload) = Fails e →
  Qle_bool 0 (Float.mul backoff (Float.of_int (i + 1))) = false →
  RagQuery.retry_loop float_repr E url payload backoff (i :: turns) last_exc tr =
    (Raise ValueError, tr ++ [Http (retry_request float_repr url payload) (Fails e)]).
Proof.
  intros Hnet Hd. cbn [RagQuery.retry_loop].
  unfold mbind, io_bind, try_except, requests_post, http, sleep.
  fold (retry_request float_repr url payload). by rewrite Hnet, Hd.
Qed.

Lemma turn_weights_nonneg (turns : list Z) :
  Forall (λ i, 0 ≤ i)%Z turns → (0 ≤ turn_weights turns)%Z.
Proof. induction 1; simpl; [done|]. fold (turn_weights l). lia. Qed.

Lemma pause_nonneg backoff (i : Z) :
  (0 <= backoff)%Q → (0 ≤ i)%Z → (0 <= Float.mul backoff (Float.of_int (i + 1)))%Q.
Proof. intros Hb Hi. apply mul_int_nonneg; [done|lia]. Qed.

(** The time slept over some first turns of a loop, when each product
    [backoff * (i + 1)] lies within a factor [c] of the exact one. *)
Lemma total_pauses backoff (c : Q) (turns : list Z) (n : nat) :
  (0 <= backoff)%Q → (0 <= c)%Q →
  Forall (λ i, (0 ≤ i)%Z ∧
               (Float.mul backoff (Float.of_int (i + 1)) <=
                  backoff * inject_Z (i + 1) * c)%Q) turns →
  (total ((λ i, Float.mul backoff (Float.of_int (i + 1))) <$> take n turns) <=
     backoff * inject_Z (turn_weights turns) * c)%Q.
Proof.
  intros Hb Hc Hturns. revert n.
  induction Hturns as [|i turns [Hi Hpause] Hturns IH]; intros n.
  - rewrite take_nil. change (0 <= backoff * 0 * c)%Q. lra.
  - assert (0 <= backoff * inject_Z (i + 1) * c)%Q as Hhead.
    { apply Qmult_le_0_compat; [|done]. apply Qmult_le_0_compat; [done|].
      change 0%Q with (inject_Z 0). rewrite <- Zle_Qle. lia. }
    assert (0 <= backoff * inject_Z (turn_weights turns) * c)%Q as Htail.
    { apply Qmult_le_0_compat; [|done]. apply Qmult_le_0_compat; [done|].
      change 0%Q with (inject_Z 0). rewrite <- Zle_Qle.
      apply turn_weights_nonneg. eapply Forall_impl; [exact Hturns|]. by intros ? [? _]. }
    cbn [turn_weights foldr]. fold (turn_weights turns).
    rewrite (inject_Z_plus (i + 1)). destruct n as [|n].
    + cbn [take fmap list_fmap total foldr]. lra.
    + cbn [take fmap list_fmap total foldr].
      change (foldr Qplus 0%Q ?l) with (total l).
      change (list_fmap _ _ ?f ?l) with (f <$> l).
      specialize (IH n). lra.
Qed.

(** What a run of the loop leaves behind. *)
Lemma retry_loop_run url payload backoff turns last_exc tr :
  (0 <= backoff)%Q → Forall (λ i, 0 ≤ i)%Z turns →
  ∃ res new,
    RagQuery.retry_loop float_repr E url payload backoff turns last_exc tr
      = (res, tr ++ new) ∧
    (length (posts new) ≤ length turns)%nat ∧
    sleeps new = (λ i, Float.mul backoff (Float.of_int (i + 1))) <$>
                   take (length (failures new)) turns ∧
    match res with
    | Ok r =>
        last new = Some (Http (retry_request float_repr url payload) (Returns r)) ∧
        (length (failures new) < length turns)%nat
    | Raise e =>
        length (posts new) = length turns ∧
        length (failures new) = length turns ∧
        e = default TypeError (last (option_list last_exc ++ failures new))
    end.
Proof.
  intros Hb Hturns. revert last_exc tr.
  induction Hturns as [|i turns Hi Hturns IH]; intros last_exc tr.
  - exists (Raise (default TypeError last_exc)), [].
    rewrite retry_loop_nil, app_nil_r. split_and!; try done.
    rewrite app_nil_r. by destruct last_exc.
  - pose proof (pause_nonneg backoff i Hb Hi) as Hd.
    destruct (net E tr (retry_request float_repr url payload)) as [r|e] eqn:Hnet.
    + exists (Ok r), [Http (retry_request float_repr url payload) (Returns r)].
      rewrite (retry_loop_returns _ _ _ _ _ _ _ r) by done.
      split_and!; try done; simpl; lia.
    + destruct (IH (Some e)
        (tr ++ [Http (retry_request float_repr url payload) (Fails e);
                Slept (Float.mul backoff (Float.of_int (i + 1)))]))
        as (res & new & Hrun & Hposts & Hslept & Hres).
      exists res, ([Http (retry_request float_repr url payload) (Fails e);
                    Slept (Float.mul backoff (Float.of_int (i + 1)))] ++ new).
      rewrite (retry_loop_fails _ _ _ _ _ _ _ e), Hrun by
        (try done; by apply Qle_bool_iff).
      split_and!.
      * by rewrite <- (assoc_L (++)).
      * simpl. lia.
      * rewrite sleeps_app, failures_app, Hslept. reflexivity.
      * destruct res as [r|e'].
        -- destruct Hres as [Hlast Hlen]. split.
           ++ cbn [app]. rewrite !last_cons, Hlast. done.
           ++ simpl. fold (failures new). lia.
        -- destruct Hres as (Hp & Hf & ->). split_and!.
           ++ simpl. fold (posts new). lia.
           ++ simpl. fold (failures new). lia.
           ++ cbn [app failures omap list_omap]. fold (failures new).
              rewrite (last_app_cons (option_list last_exc)). done.
Qed.

(** C6, as the code has it: with a ceiling of [attempts] and a base
    [backoff], whatever the calls come to, the helper posts at most
    [attempts] times; it raises exactly when every attempt raised, and then
    it raises the exception of the last attempt. After the [k]-th failed
    attempt it sleeps the float product [backoff * k], which rounding can
    put above the exact product: the time slept in all is at most
    [backoff * attempts * (attempts + 1) / 2] times [1 + 2^-53], and at most
    [backoff * attempts * (attempts + 1) / 2] itself when the products are
    exact. *)
Theorem retry_ceiling url payload (attempts : Z) backoff tr :
  (0 ≤ attempts ≤ 2 ^ 53)%Z → Float.is_float backoff → (0 <= backoff)%Q →
  ∃ res new,
    RagQuery._post_json_with_retries float_repr E url payload attempts backoff tr
      = (res, tr ++ new) ∧
    (Z.of_nat (length (posts new)) ≤ attempts)%Z ∧
    sleeps new = (λ i, Float.mul backoff (Float.of_int (i + 1))) <$>
                   range (Z.of_nat (length (failures new))) ∧
    (total (sleeps new) <=
       backoff * (inject_Z (attempts * (attempts + 1)) / 2) *
       (1 + Float.unit_roundoff))%Q ∧
    ((∀ k, (1 ≤ k ≤ attempts)%Z →
           (Float.mul backoff (Float.of_int k) == backoff * inject_Z k)%Q) →
     (total (sleeps new) <= backoff * (inject_Z (attempts * (attempts + 1)) / 2))%Q) ∧
    match res with
    | Ok r =>
        last new = Some (Http (retry_request float_repr url payload) (Returns r)) ∧
        (Z.of_nat (length (failures new)) < attempts)%Z
    | Raise e =>
        Z.of_nat (length (posts new)) = attempts ∧
        Z.of_nat (length (failures new)) = attempts ∧
        ((1 ≤ attempts)%Z → last (failures new) = Some e)
    end.
Proof.
  intros [Hn Hmax] Hfloat Hb. unfold RagQuery._post_json_with_retries.
  assert (Forall (λ i, 0 ≤ i < attempts)%Z (range attempts)) as Hrange.
  { unfold range. apply Forall_fmap, Forall_forall. intros i Hi%elem_of_seq.
    simpl. lia. }
  assert (Forall (λ i, 0 ≤ i)%Z (range attempts)) as Hturns
    by (eapply Forall_impl; [exact Hrange|]; simpl; intros; lia).
  assert (Z.of_nat (length (range attempts)) = attempts) as Hlen.
  { unfold range. rewrite length_fmap, length_seq. lia. }
  destruct (retry_loop_run url payload backoff (range attempts) None tr Hb Hturns)
    as (res & new & Hrun & Hposts & Hslept & Hres).
  assert (length (failures new) ≤ length (range attempts))%nat as Hfail
    by (destruct res; [|destruct Hres as (_ & -> & _)]; lia).
  pose proof (turn_weights_range attempts Hn) as Hw.
  assert (backoff * inject_Z (turn_weights (range attempts)) ==
          backoff * (inject_Z (attempts * (attempts + 1)) / 2))%Q as Hsum
    by (rewrite <- Hw, inject_Z_mult; field).
  exists res, new. split; [done|]. split; [lia|]. split; [|split; [|split]].
  - rewrite Hslept. f_equal. unfold range. rewrite <- fmap_take, take_seq.
    do 2 f_equal. unfold range in Hfail. rewrite length_fmap, length_seq in Hfail. lia.
  - rewrite Hslept, <- Hsum. apply total_pauses; [done|discriminate|].
    eapply Forall_impl; [exact Hrange|]. simpl. intros i Hi. split; [lia|].
    apply mul_int_upper; [done..|lia].
  - intros Hexact. rewrite Hslept, <- Hsum.
    rewrite <- (Qmult_1_r (backoff * inject_Z (turn_weights (range attempts)))).
    apply total_pauses; [done|discriminate|].
    eapply Forall_impl; [exact Hrange|]. simpl. intros i Hi. split; [lia|].
    rewrite Hexact by lia. rewrite Qmult_1_r. apply Qle_refl.
  - destruct res as [r|e].
    + destruct Hres as [? ?]. split; [done|lia].
    + destruct Hres as (Hp & Hf & ->). split_and!; try lia.
      intros Hpos. simpl. destruct (failures new) as [|e0 fs] eqn:Hfs.
      * simpl in Hf. lia.
      * by destruct (last (e0 :: fs)) eqn:Hl; [|apply last_None in Hl].
Qed.

(** C2, as the code has it: when the first two attempts raise and the
    third returns a response, the helper posts exactly three times, sleeps
    [backoff * 1] and then [backoff * 2] in between (float products, and
    exact ones), the second sleep the longer one, and returns that response;
    a response that the first attempt returns, whatever its status, is
    returned at once. *)
Theorem retry_after_two_exceptions url payload backoff tr e1 e2 r :
  let req := retry_request float_repr url payload in
  let d1 := Float.mul backoff (Float.of_int (0 + 1)) in
  let d2 := Float.mul backoff (Float.of_int (1 + 1)) in
  Float.is_float backoff →
  (0 < backoff)%Q →
  net E tr req = Fails e1 →
  net E (tr ++ [Http req (Fails e1); Slept d1]) req = Fails e2 →
  net E (tr ++ [Http req (Fails e1); Slept d1; Http req (Fails e2); Slept d2]) req
    = Returns r →
  RagQuery._post_json_with_retries float_repr E url payload 3 backoff tr =
    (Ok r, tr ++ [Http req (Fails e1); Slept d1; Http req (Fails e2); Slept d2;
                  Http req (Returns r)]) ∧
  (d1 == backoff * 1)%Q ∧ (d2 == backoff * 2)%Q ∧
  (d1 < d2)%Q ∧
  ∀ tr0 r0, net E tr0 req = Returns r0 →
            RagQuery._post_json_with_retries float_repr E url payload 3 backoff tr0 =
              (Ok r0, tr0 ++ [Http req (Returns r0)]).
Proof.
  intros req d1 d2 Hfloat Hb H1 H2 H3.
  assert (d1 == backoff * 1)%Q as Hd1 by (unfold d1; rewrite (mul_one _ Hfloat); ring).
  assert (d2 == backoff * 2)%Q as Hd2 by apply (mul_two _ Hfloat).
  split; [|split; [done|split; [done|split]]].
  - unfold RagQuery._post_json_with_retries.
    change (range 3) with [0; 1; 2]%Z.
    assert (0 <= backoff)%Q as Hb' by by apply Qlt_le_weak.
    rewrite (retry_loop_fails _ _ _ _ _ _ _ e1);
      [|done|by apply Qle_bool_iff, pause_nonneg].
    rewrite (retry_loop_fails _ _ _ _ _ _ _ e2);
      [|done|by apply Qle_bool_iff, pause_nonneg].
    rewrite <- (assoc_L (++)). cbn [app].
    rewrite (retry_loop_returns _ _ _ _ _ _ _ r) by done.
    by rewrite <- (assoc_L (++)).
  - rewrite Hd1, Hd2. lra.
  - intros tr0 r0 Hnet. unfold RagQuery._post_json_with_retries.
    change (range 3) with [0; 1; 2]%Z.
    by rewrite (retry_loop_returns _ _ _ _ _ _ _ r0).
Qed.
End RetryFacts.

Lemma retry_503_counterexample :
  RagQuery._post_json_with_retries integral_repr sink_503_503_201
    RagQuery.ELASTIC_DOC_URL log_entry 3 (1 # 2) [] =
    (Ok (answer 503), [Http log_request (Returns (answer 503))]) ∧
  ¬ retries_503_until_201.
Proof.
  split; [vm_compute; reflexivity|].
  intros (d1 & d2 & Hrun & _). vm_compute in Hrun. discriminate.
Qed.

Lemma half_second_is_float : Float.is_float (1 # 2).
Proof. by exists 1%Z, (-1)%Z. Qed.

Lemma retry_after_two_exceptions_witness :
  RagQuery._post_json_with_retries integral_repr sink_raises_twice
    RagQuery.ELASTIC_DOC_URL log_entry 3 (1 # 2) [] =
    (Ok (answer 201),
     [Http log_request (Fails ConnectionError); Slept (1 # 2);
      Http log_request (Fails Timeout); Slept 1;
      Http log_request (Returns (answer 201))]) ∧
  ((1 # 2) < 1)%Q.
Proof.
  destruct (retry_after_two_exceptions integral_repr sink_raises_twice
              RagQuery.ELASTIC_DOC_URL log_entry (1 # 2) [] ConnectionError Timeout (answer 201))
    as (Hrun & _ & _ & Hlt & _);
    [exact half_second_is_float|reflexivity|vm_compute; reflexivity..|].
  split; [exact Hrun|exact Hlt].
Defined.

Lemma retry_ceiling_witness :
  ∃ res new,
    RagQuery._post_json_with_retries integral_repr sink_down
      RagQuery.ELASTIC_DOC_URL log_entry 3 (1 # 2) [] = (res, [] ++ new) ∧
    (Z.of_nat (length (posts new)) ≤ 3)%Z ∧
    (total (sleeps new) <= (1 # 2) * (inject_Z (3 * (3 + 1)) / 2))%Q ∧
    match res with
    | Ok r =>
        last new = Some (Http log_request (Returns r)) ∧
        (Z.of_nat (length (failures new)) < 3)%Z
    | Raise e =>
        Z.of_nat (length (posts new)) = 3%Z ∧
        Z.of_nat (length (failures new)) = 3%Z ∧
        ((1 ≤ 3)%Z → last (failures new) = Some e)
    end.
Proof.
  destruct (retry_ceiling integral_repr sink_down RagQuery.ELASTIC_DOC_URL log_entry
              3 (1 # 2) [])
    as (res & new & Hrun & Hposts & _ & _ & Hexact & Hres).
  - split; [lia|]. apply Z.leb_le. reflexivity.
  - exact half_second_is_float.
  - discriminate.
  - exists res, new. split; [exact Hrun|]. split; [exact Hposts|]. split; [|exact Hres].
    apply Hexact. intros k Hk.
    assert (k = 1 ∨ k = 2 ∨ k = 3)%Z as [-> | [-> | ->]] by lia; vm_compute; reflexivity.
Defined.

(** The products the code computes for a backoff of [0.003]: the third one
    lies above three times the backoff, and four failed attempts sleep
    longer than [backoff * 4 * 5 / 2]. *)
Lemma retry_sleep_bound_counterexample :
  (∃ new,
     RagQuery._post_json_with_retries integral_repr sink_down
       RagQuery.ELASTIC_DOC_URL log_entry 4 backoff_0_003 [] =
       (Raise ConnectionError, new) ∧
     length (posts new) = 4%nat ∧
     (backoff_0_003 * (inject_Z (4 * (4 + 1)) / 2) < total (sleeps new))%Q) ∧
  (backoff_0_003 * 3 < Float.mul backoff_0_003 (Float.of_int 3))%Q ∧
  ¬ sleeps_within_bound.
Proof.
  split; [|split].
  - eexists. split; [vm_compute; reflexivity|]. split; vm_compute; reflexivity.
  - vm_compute. reflexivity.
  - intros Hclaim.
    destruct (RagQuery._post_json_with_retries integral_repr sink_down
                RagQuery.ELASTIC_DOC_URL log_entry 4 backoff_0_003 [])
      as [res new] eqn:Hrun.
    assert (0 <= backoff_0_003)%Q as Hb by (apply round_nonneg; discriminate).
    specialize (Hclaim sink_down 4%Z backoff_0_003 res new ltac:(lia)
                  (round_is_float _) Hb Hrun).
    vm_compute in Hrun. injection Hrun as <- <-.
    apply Qle_not_lt in Hclaim. apply Hclaim. vm_compute. reflexivity.
Qed.

Example sink_down_run :
  RagQuery._post_json_with_retries integral_repr sink_down
    RagQuery.ELASTIC_DOC_URL log_entry 3 (1 # 2) [] =
    (Raise ConnectionError,
     [Http log_request (Fails ConnectionError); Slept (1 # 2);
      Http log_request (Fails ConnectionError); Slept 1;
      Http log_request (Fails ConnectionError); Slept (3 # 2)]).
Proof. vm_compute. reflexivity. Qed.

(** Outside the hypotheses of the ceiling theorem: a negative backoff makes
    the first sleep raise, and a ceiling of zero leaves nothing to raise but
    [None]. *)
Example negative_backoff_run :
  RagQuery._post_json_with_retries integral_repr sink_down
    RagQuery.ELASTIC_DOC_URL log_entry 3 (- 1 # 2) [] =
    (Raise ValueError, [Http log_request (Fails ConnectionError)]).
Proof. vm_compute. reflexivity. Qed.

Example zero_attempts_run :
  RagQuery._post_json_with_retries integral_repr sink_down
    RagQuery.ELASTIC_DOC_URL log_entry 0 (1 # 2) [] = (Raise TypeError, []).
Proof. reflexivity. Qed.

(** The rounding at work, against what Python computes: [0.1 * 3],
    [0.003 * 3], a tie between two subnormal doubles, and an [int] of 54
    bits. *)
Example float_products :
  Float.mul (Float.round (1 # 10)) (Float.of_int 3) = (1351079888211149 # 4503599627370496)%Q ∧
  Float.mul backoff_0_003 (Float.of_int 3) = (1297036692682703 # 144115188075855872)%Q ∧
  backoff_0_003 = (3458764513820541 # 1152921504606846976)%Q ∧
  (Float.round ((5 # 2) * 2 ^ Float.emin) == 2 * 2 ^ Float.emin)%Q ∧
  Float.of_int (2 ^ 53 + 1) = inject_Z (2 ^ 53) ∧
  Float.mul (1 # 2) (Float.of_int 3) = (3 # 2)%Q.
Proof. repeat split; vm_compute; reflexivity. Qed.

(** ** The bridge *)

Section BridgeFacts.
Context {F : Type} (float : pystr → option F) (E : env F).
Implicit Types (url svc : pystr) (m : gmap pystr F) (tr : list (event F)).

Lemma push_run svc m tr :
  Bridge.push_to_elasticsearch E svc m tr = (Ok tt, tr ++ push_events E svc m tr).
Proof.
  unfold Bridge.push_to_elasticsearch, push_events.
  unfold mbind, io_bind, utcnow_isoformat, try_except, requests_post, http.
  fold (sink_request {| timestamp := utcnow E tr; service := svc; metrics := m |}).
  destruct (net E _ _) as [r|e]; cbn.
  - destruct (in_200_201 (status_code r)); unfold print, emit;
      by rewrite <- !(assoc_L (++)).
  - unfold print, emit. by rewrite <- !(assoc_L (++)).
Qed.

Lemma poll_run url svc tr :
  Bridge.service_name_of url = Ok svc →
  Bridge.poll float E url tr =
    match net E tr (fetch_request url) with
    | Returns r =>
        if (status_code r =? 200)%Z then
          Bridge.push_to_elasticsearch E svc
            (foldl (absorb float) ∅ (Str.splitlines (text r)))
            (tr ++ [Http (fetch_request url) (Returns r)])
        else (Ok tt, tr ++ [Http (fetch_request url) (Returns r);
                            Printed (CannotFetch url (status_code r))])
    | Fails e => (Ok tt, tr ++ [Http (fetch_request url) (Fails e);
                                Printed (FetchError url e)])
    end.
Proof.
  intros Hsvc. unfold Bridge.poll. rewrite Hsvc.
  unfold mbind at 1, io_bind at 1. cbn [lift mret io_ret].
  unfold try_except, mbind at 1, io_bind at 1, requests_get, http.
  fold (@fetch_request F url).
  destruct (net E tr (fetch_request url)) as [r|e].
  - destruct (status_code r =? 200)%Z.
    + unfold parse_prometheus_metrics. rewrite for_fold_parse.
      unfold mbind, io_bind at 1. cbn [lift mret io_ret].
      rewrite push_run. done.
    + unfold print, emit. by rewrite <- (assoc_L (++)).
  - unfold print, emit. by rewrite <- (assoc_L (++)).
Qed.

(** C1, as the code has it: a push reads the clock, posts the document
    to the sink exactly once and prints one line, whatever the write comes
    to; it never sleeps, never posts again and never raises, and a write
    the sink did not accept is reported by a line other than the success
    line. *)
Theorem push_posts_once svc m tr :
  let now := utcnow E tr in
  let doc := {| timestamp := now; service := svc; metrics := m |} in
  let out := net E (tr ++ [Clock now]) (sink_request doc) in
  let new := [Clock now; Http (sink_request doc) out; Printed (push_report svc out)] in
  Bridge.push_to_elasticsearch E svc m tr = (Ok tt, tr ++ new) ∧
  posts new = [(sink_request doc, out)] ∧
  sleeps new = [] ∧
  (write_failed out ↔ push_report svc out ≠ Pushed svc).
Proof.
  intros now doc out new. split; [apply push_run|]. split; [done|]. split; [done|].
  destruct out as [r|e]; simpl; [|done].
  destruct (in_200_201 (status_code r)); split; done.
Qed.

(** C5, as the code has it: a fetch that returns status 200, and no other
    status, has its body parsed and the document pushed; any other response,
    other 2xx statuses included, is reported and the source skipped. *)
Theorem poll_success_is_200 url svc tr r :
  Bridge.service_name_of url = Ok svc →
  net E tr (fetch_request url) = Returns r →
  let tr1 := tr ++ [Http (fetch_request url) (Returns r)] in
  (status_code r = 200%Z →
     ∃ m, parse_prometheus_metrics float (text r) = Ok m ∧
          Bridge.poll float E url tr = (Ok tt, tr1 ++ push_events E svc m tr1)) ∧
  (status_code r ≠ 200%Z →
     Bridge.poll float E url tr =
       (Ok tt, tr1 ++ [Printed (CannotFetch url (status_code r))])).
Proof.
  intros Hsvc Hnet tr1. rewrite (poll_run _ svc) by done. rewrite Hnet. split.
  - intros ->. simpl. eexists. split; [|apply push_run].
    unfold parse_prometheus_metrics. apply for_fold_parse.
  - intros Hne. apply Z.eqb_neq in Hne. rewrite Hne. unfold tr1.
    by rewrite <- (assoc_L (++)).
Qed.

Lemma poll_never_raises url svc tr :
  Bridge.service_name_of url = Ok svc →
  ∃ new, Bridge.poll float E url tr = (Ok tt, tr ++ new).
Proof.
  intros Hsvc. rewrite (poll_run _ svc) by done.
  destruct (net E tr (fetch_request url)) as [r|e]; [|eauto].
  destruct (status_code r =? 200)%Z; [|eauto].
  rewrite push_run, <- (assoc_L (++)). eauto.
Qed.

(** A tick over sources whose names can be read off their URLs runs to
    its end, whatever the network does. *)
Lemma tick_never_raises (endpoints : list pystr) tr :
  Forall (λ url, ∃ svc, Bridge.service_name_of url = Ok svc) endpoints →
  ∃ new, Bridge.tick_over float E endpoints tr = (Ok tt, tr ++ new ++ [Slept 10]).
Proof.
  intros Hall. unfold Bridge.tick_over.
  assert (∃ new, for_each (Bridge.poll float E) endpoints tr = (Ok tt, tr ++ new))
    as [new Hnew].
  { revert tr. induction Hall as [|url urls [svc Hsvc] _ IH]; intros tr.
    - exists []. by rewrite app_nil_r.
    - destruct (poll_never_raises url svc tr Hsvc) as [new1 H1].
      destruct (IH (tr ++ new1)) as [new2 H2].
      exists (new1 ++ new2). cbn [for_each]. unfold mbind, io_bind.
      rewrite H1. fold (@mbind (io F) _). unfold mbind, io_bind in H2.
      rewrite H2. by rewrite <- (assoc_L (++)). }
  exists new. unfold mbind, io_bind. rewrite Hnew.
  unfold sleep, emit. simpl. by rewrite <- (assoc_L (++)).
Qed.

(** C7: in a tick over two sources of which the first always fails to be
    fetched and the second always answers 200, the first is reported and
    skipped, and the second is still fetched, its body parsed and its
    document posted to the sink before the tick ends with its sleep. *)
Theorem tick_isolates_sources u1 u2 s1 s2 tr :
  Bridge.service_name_of u1 = Ok s1 →
  Bridge.service_name_of u2 = Ok s2 →
  (∀ tr', fetch_failed (net E tr' (fetch_request u1))) →
  (∀ tr', ∃ body, net E tr' (fetch_request u2) =
                  Returns {| status_code := 200; text := body |}) →
  ∃ out1 body m,
    let skip := [Http (fetch_request u1) out1; Printed (skip_report u1 out1)] in
    let fetched := tr ++ skip ++
      [Http (fetch_request u2) (Returns {| status_code := 200; text := body |})] in
    fetch_failed out1 ∧
    parse_prometheus_metrics float body = Ok m ∧
    Bridge.tick_over float E [u1; u2] tr =
      (Ok tt, fetched ++ push_events E s2 m fetched ++ [Slept 10]).
Proof.
  intros Hs1 Hs2 Hfail Hgood.
  set (out1 := net E tr (fetch_request u1)).
  set (skip := [Http (fetch_request u1) out1; Printed (skip_report u1 out1)]
         : list (event F)).
  destruct (Hgood (tr ++ skip)) as [body Hbody].
  exists out1, body, (foldl (absorb float) ∅ (Str.splitlines body)).
  split; [apply Hfail|]. split.
  { unfold parse_prometheus_metrics. apply for_fold_parse. }
  assert (Bridge.poll float E u1 tr = (Ok tt, tr ++ skip)) as H1.
  { rewrite (poll_run _ s1) by done. specialize (Hfail tr).
    fold out1 in Hfail |- *. unfold skip. destruct out1 as [r|e]; [|done].
    simpl in Hfail. apply Z.eqb_neq in Hfail. by rewrite Hfail. }
  unfold Bridge.tick_over. cbn [for_each]. unfold mbind, io_bind.
  rewrite H1, (poll_run _ s2), Hbody by done. cbn [status_code text].
  change (200 =? 200)%Z with true. cbn match. rewrite push_run.
  unfold sleep, emit, mret, io_ret. change (Qle_bool 0 10) with true.
  cbn beta iota. by rewrite <- !(assoc_L (++)).
Qed.
End BridgeFacts.

Example configured_sources : Bridge.PROM_ENDPOINTS = [source_A; source_B].
Proof. reflexivity. Qed.

Lemma push_not_retried_counterexample :
  Bridge.push_to_elasticsearch sink_down (lit "8000") scenario_metrics [] =
    (Ok tt,
     [Clock (lit "2025-01-01T00:00:00");
      Http (sink_request (scenario_document (lit "2025-01-01T00:00:00")))
           (Fails ConnectionError);
      Printed (PushError ConnectionError)]) ∧
  ¬ sink_write_retried 3.
Proof.
  split; [reflexivity|]. intros Hclaim.
  specialize (Hclaim sink_down (lit "8000") scenario_metrics [] _ eq_refl).
  simpl in Hclaim. discriminate Hclaim. repeat constructor.
Qed.

Lemma poll_201_counterexample :
  Bridge.poll Decimal.float (source_answers 201) source_A [] =
    (Ok tt,
     [Http (fetch_request source_A) (Returns (scenario_response 201));
      Printed (CannotFetch source_A 201)]) ∧
  ¬ any_2xx_is_pushed.
Proof.
  split; [vm_compute; reflexivity|]. intros Hclaim.
  destruct (Hclaim (source_answers 201) source_A (lit "8000") []
              (scenario_response 201)) as (new & Hnew & Hposts);
    [vm_compute; reflexivity | reflexivity | simpl; lia |].
  apply Hposts. vm_compute in Hnew. by subst new.
Qed.

Lemma poll_success_is_200_witness :
  Bridge.poll Decimal.float (source_answers 200) source_A [] =
    (Ok tt,
     [Http (fetch_request source_A) (Returns (scenario_response 200));
      Clock (lit "2025-01-01T00:00:00");
      Http (sink_request (scenario_document (lit "2025-01-01T00:00:00")))
           (Returns (answer 201));
      Printed (Pushed (lit "8000"))]).
Proof.
  destruct (poll_success_is_200 Decimal.float (source_answers 200) source_A
              (lit "8000") [] (scenario_response 200)) as [Hok _];
    [vm_compute; reflexivity | reflexivity |].
  destruct (Hok eq_refl) as (m & Hm & Hrun).
  rewrite Hrun. change (text (scenario_response 200)) with scenario_text in Hm.
  rewrite scenario_parse in Hm. injection Hm as <-.
  vm_compute. reflexivity.
Defined.

Lemma tick_isolates_sources_witness :
  ∃ out1 body m,
    let skip := [Http (fetch_request source_A) out1;
                 Printed (skip_report source_A out1)] in
    let fetched := [] ++ skip ++
      [Http (fetch_request source_B)
            (Returns {| status_code := 200; text := body |})] in
    fetch_failed out1 ∧
    parse_prometheus_metrics Decimal.float body = Ok m ∧
    Bridge.tick_over Decimal.float source_A_down [source_A; source_B] [] =
      (Ok tt, fetched ++ push_events source_A_down (lit "8011") m fetched ++ [Slept 10]).
Proof.
  apply (tick_isolates_sources Decimal.float source_A_down source_A source_B
           (lit "8000") (lit "8011") []).
  - vm_compute; reflexivity.
  - vm_compute; reflexivity.
  - intros tr'. exact I.
  - intros tr'. exists scenario_text. reflexivity.
Defined.

(** C9: the four-line text of the scenario parses to the two samples, the
    comment and the line without a value dropped, and a poll of the source
    at port 8000 that is answered with this text posts one document that
    carries the two values under the service name [8000]. *)
Theorem scenario_poll :
  parse_prometheus_metrics Decimal.float scenario_text = Ok scenario_metrics ∧
  scenario_metrics !! lit "rag_queries_total" = Some (Decimal.Finite 42) ∧
  scenario_metrics !! lit "rag_retrieval_time_seconds" = Some (Decimal.Finite (7 # 100)) ∧
  size scenario_metrics = 2%nat ∧
  Bridge.service_name_of source_A = Ok (lit "8000") ∧
  ∀ (E : env Decimal.value) tr,
    net E tr (fetch_request source_A) = Returns (scenario_response 200) →
    let tr1 := tr ++ [Http (fetch_request source_A) (Returns (scenario_response 200))] in
    let doc := scenario_document (utcnow E tr1) in
    let out := net E (tr1 ++ [Clock (utcnow E tr1)]) (sink_request doc) in
    Bridge.poll Decimal.float E source_A tr =
      (Ok tt, tr1 ++ [Clock (utcnow E tr1); Http (sink_request doc) out;
                      Printed (push_report (lit "8000") out)]).
Proof.
  split; [apply scenario_parse|]. split; [vm_compute; reflexivity|].
  split; [vm_compute; reflexivity|]. split; [vm_compute; reflexivity|].
  split; [vm_compute; reflexivity|].
  intros E tr Hnet tr1 doc out.
  rewrite (poll_run _ _ _ (lit "8000")), Hnet by (vm_compute; reflexivity).
  change (status_code (scenario_response 200) =? 200)%Z with true. cbn match.
  change (text (scenario_response 200)) with scenario_text.
  assert (foldl (absorb Decimal.float) ∅ (Str.splitlines scenario_text)
          = scenario_metrics) as -> by (vm_compute; reflexivity).
  apply push_run.
Qed.

Lemma scenario_poll_witness :
  Bridge.poll Decimal.float (source_answers 200) source_A [] =
    (Ok tt,
     [Http (fetch_request source_A) (Returns (scenario_response 200));
      Clock (lit "2025-01-01T00:00:00");
      Http (sink_request (scenario_document (lit "2025-01-01T00:00:00")))
           (Returns (answer 201));
      Printed (push_report (lit "8000") (Returns (answer 201)))]).
Proof.
  destruct scenario_poll as (_ & _ & _ & _ & _ & Hpoll).
  apply (Hpoll (source_answers 200) []). reflexivity.
Defined.

(** ** JSON texts *)

(** Closes [one_line] of a literal. *)
Ltac one_line_lit :=
  vm_compute;
  repeat (apply not_elem_of_cons; split; [discriminate|]);
  apply not_elem_of_nil.

Section OneLine.
Implicit Types (s : pystr).

Lemma one_line_app s1 s2 : one_line (s1 ++ s2) ↔ one_line s1 ∧ one_line s2.
Proof. unfold one_line. rewrite elem_of_app. tauto. Qed.

Lemma one_line_cons c s : one_line (c :: s) ↔ c ≠ 10 ∧ one_line s.
Proof. unfold one_line. rewrite elem_of_cons. intuition congruence. Qed.

Lemma one_line_nil : one_line [].
Proof. apply not_elem_of_nil. Qed.

Lemma hexdigit_ne d : Json.hexdigit d ≠ 10.
Proof. unfold Json.hexdigit. destruct (d <? 10); lia. Qed.

Lemma u_escape_one_line n : one_line (Json.u_escape n).
Proof.
  unfold Json.u_escape, Json.hex4. cbn [app].
  rewrite !one_line_cons. pose proof hexdigit_ne.
  split_and!; try done. apply one_line_nil.
Qed.

Lemma escape_one_line c : one_line (Json.escape c).
Proof.
  unfold Json.escape.
  repeat match goal with
         | |- context [if ?b then _ else _] => destruct b eqn:?
         end;
    rewrite ?one_line_app, ?one_line_cons;
    auto using u_escape_one_line, one_line_nil;
    try (split_and!; (done || apply one_line_nil)).
  split; [|apply one_line_nil]. intros ->. done.
Qed.

Lemma dumps_str_one_line s : one_line (Json.dumps_str s).
Proof.
  unfold Json.dumps_str. rewrite !one_line_app, !one_line_cons.
  split_and!; try done; try apply one_line_nil.
  induction s as [|c s IH]; [apply one_line_nil|].
  simpl. rewrite one_line_app. split; [apply escape_one_line|done].
Qed.

Lemma uint_one_line (d : Decimal.uint) : one_line (lit (NilEmpty.string_of_uint d)).
Proof.
  induction d; cbn [NilEmpty.string_of_uint];
    [apply one_line_nil|..];
    (change (lit (String ?a ?r)) with (N_of_ascii a :: lit r);
     rewrite one_line_cons; split; [done|assumption]).
Qed.

Lemma dumps_int_one_line z : one_line (Json.dumps_int z).
Proof.
  unfold Json.dumps_int, NilZero.string_of_int.
  assert (∀ d, one_line (lit (NilZero.string_of_uint d))) as Hu.
  { intros d. unfold NilZero.string_of_uint.
    destruct d; try apply uint_one_line.
    change (lit "0") with [48]. rewrite one_line_cons. split; [done|apply one_line_nil]. }
  destruct (Z.to_int z); [apply Hu|].
  change (lit (String ?a ?r)) with (N_of_ascii a :: lit r).
  rewrite one_line_cons. split; [done|apply Hu].
Qed.

Lemma join_one_line sep (parts : list pystr) :
  one_line sep → Forall one_line parts → one_line (Str.join sep parts).
Proof.
  intros Hsep. induction 1 as [|p ps Hp Hps IH]; [apply one_line_nil|].
  cbn [Str.join]. destruct ps as [|p' ps]; [done|].
  rewrite !one_line_app. auto.
Qed.
End OneLine.

Lemma json_nested_ind {F} (P : json F → Prop) :
  P JNull → (∀ b, P (JBool b)) → (∀ z, P (JInt z)) → (∀ x, P (JFloat x)) →
  (∀ s, P (JStr s)) →
  (∀ items, Forall P items → P (JList items)) →
  (∀ fields, Forall (λ kv, P kv.2) fields → P (JDict fields)) →
  ∀ j, P j.
Proof.
  intros Hnull Hbool Hint Hfloat Hstr Hlist Hdict.
  fix IH 1. intros [ |b|z|x|s|items|fields];
    [apply Hnull|apply Hbool|apply Hint|apply Hfloat|apply Hstr| |].
  - apply Hlist. revert items. fix IHitems 1.
    intros [|j items]; constructor; [apply IH|apply IHitems].
  - apply Hdict. revert fields. fix IHfields 1.
    intros [|[k j] fields]; constructor; [apply IH|apply IHfields].
Qed.

Section DumpsFacts.
Context {F : Type} (float_repr : F → pystr).

Lemma dumps_one_line (j : json F) :
  (∀ x, one_line (float_repr x)) → one_line (Json.dumps float_repr j).
Proof.
  intros Hrepr. induction j as [ |b|z|x|s|items IH|fields IH] using json_nested_ind;
    cbn [Json.dumps].
  - one_line_lit.
  - destruct b; one_line_lit.
  - apply dumps_int_one_line.
  - apply Hrepr.
  - apply dumps_str_one_line.
  - rewrite !one_line_app. split; [one_line_lit|]. split; [|one_line_lit].
    apply join_one_line; [one_line_lit|]. by apply Forall_fmap.
  - rewrite !one_line_app. split; [one_line_lit|]. split; [|one_line_lit].
    apply join_one_line; [one_line_lit|].
    apply Forall_fmap. eapply Forall_impl; [exact IH|].
    intros [k v] Hv. simpl in Hv. unfold compose. cbn [fst snd].
  rewrite !one_line_app.
    split; [apply dumps_str_one_line|]. split; [one_line_lit|done].
Qed.
End DumpsFacts.

(** ** The bulk writers *)

Section BulkFacts.
Context {F : Type} (float_repr : F → pystr) (E : env F).
Implicit Types (docs : list (json F)) (tr : list (event F)).

Lemma action_dumps : Json.dumps float_repr (@PromToEs.action F) = action_line.
Proof. reflexivity. Qed.

Lemma mock_action_dumps : Json.dumps float_repr (@LoadMock.action F) = action_line.
Proof. reflexivity. Qed.

Lemma ndjson_lines_cons doc docs :
  ndjson_lines float_repr (doc :: docs) =
    action_line :: Json.dumps float_repr doc :: ndjson_lines float_repr docs.
Proof. reflexivity. Qed.

Lemma ndjson_lines_length docs :
  length (ndjson_lines float_repr docs) = (2 * length docs)%nat.
Proof.
  induction docs as [|doc docs IH]; [done|].
  rewrite ndjson_lines_cons. simpl in *. lia.
Qed.

Lemma ndjson_lines_lookup docs i doc :
  docs !! i = Some doc →
  ndjson_lines float_repr docs !! (2 * i)%nat = Some action_line ∧
  ndjson_lines float_repr docs !! (2 * i + 1)%nat = Some (Json.dumps float_repr doc).
Proof.
  revert i. induction docs as [|d docs IH]; intros i; [done|].
  rewrite ndjson_lines_cons. destruct i as [|i].
  - by intros [= ->].
  - intros Hi%IH. replace (2 * S i)%nat with (S (S (2 * i))) by lia.
    replace (S (S (2 * i)) + 1)%nat with (S (S (2 * i + 1))) by lia. done.
Qed.

Lemma ndjson_lines_one_line docs :
  (∀ x, one_line (float_repr x)) → Forall one_line (ndjson_lines float_repr docs).
Proof.
  intros Hrepr. induction docs as [|doc docs IH]; [constructor|].
  rewrite ndjson_lines_cons. repeat constructor; [|by apply dumps_one_line|done].
  one_line_lit.
Qed.

Lemma split_on_line l rest :
  one_line l → Str.split_on 10 (l ++ nl ++ rest) = l :: Str.split_on 10 rest.
Proof.
  induction l as [|c l IH]; [done|].
  intros [Hc Hl]%one_line_cons. cbn [app Str.split_on].
  apply N.eqb_neq in Hc. rewrite Hc. cbn [app] in IH. by rewrite IH.
Qed.

Lemma split_on_unlines (lines : list pystr) :
  Forall one_line lines → Str.split_on 10 (unlines lines) = lines ++ [[]].
Proof.
  induction 1 as [|l lines Hl _ IH]; [done|].
  rewrite unlines_cons, split_on_line by done. by rewrite IH.
Qed.

Lemma bulk_data_unlines docs :
  PromToEs.bulk_data_of float_repr docs = unlines (ndjson_lines float_repr docs).
Proof.
  unfold PromToEs.bulk_data_of.
  enough (∀ acc, foldl (λ bulk_data doc,
                   let bulk_data := bulk_data ++ (Json.dumps float_repr PromToEs.action ++ nl) in
                   bulk_data ++ (Json.dumps float_repr doc ++ nl)) acc docs
                 = acc ++ unlines (ndjson_lines float_repr docs)) as H by apply (H []).
  induction docs as [|doc docs IH]; intros acc.
  - simpl. by rewrite app_nil_r.
  - cbn [foldl]. rewrite IH, ndjson_lines_cons, !unlines_cons, action_dumps.
    by rewrite <- !(assoc_L (++)).
Qed.

Lemma bulk_lines_ndjson docs :
  LoadMock.bulk_lines float_repr docs = ndjson_lines float_repr docs.
Proof.
  unfold LoadMock.bulk_lines.
  enough (∀ acc, foldl (λ bulk_lines doc,
                   (bulk_lines ++ [Json.dumps float_repr LoadMock.action])
                     ++ [Json.dumps float_repr doc]) acc docs
                 = acc ++ ndjson_lines float_repr docs) as H by apply (H []).
  induction docs as [|doc docs IH]; intros acc.
  - simpl. by rewrite app_nil_r.
  - cbn [foldl]. rewrite IH, ndjson_lines_cons, mock_action_dumps.
    by rewrite <- !(assoc_L (++)).
Qed.

Lemma join_nl_unlines (lines : list pystr) :
  lines ≠ [] → Str.join nl lines ++ nl = unlines lines.
Proof.
  induction lines as [|l lines IH]; [done|]. intros _.
  rewrite unlines_cons. destruct lines as [|l' lines]; [done|].
  change (Str.join nl (l :: l' :: lines))
    with (l ++ nl ++ Str.join nl (l' :: lines)).
  rewrite <- !(assoc_L (++)). by rewrite IH.
Qed.

Lemma push_bulk_run doc docs tr :
  let body := unlines (ndjson_lines float_repr (doc :: docs)) in
  let req := POST (lit "http://localhost:9200/_bulk") ndjson_headers
                  (DataBody body) (Some 15%Z) in
  PromToEs.push_bulk_to_es float_repr E (doc :: docs) tr =
    (Ok tt, tr ++ [Http req (net E tr req)] ++ bulk_report (net E tr req)).
Proof.
  intros body req. unfold PromToEs.push_bulk_to_es.
  rewrite bulk_data_unlines. fold body.
  unfold try_except, mbind, io_bind, requests_post, http.
  change (PromToEs.ES ++ lit "/_bulk") with (lit "http://localhost:9200/_bulk").
  fold req. destruct (net E tr req) as [r|e]; cbn [bulk_report].
  - destruct (in_200_201 (status_code r)); cbn [negb].
    + by rewrite app_nil_r.
    + unfold print, emit. by rewrite <- (assoc_L (++)).
  - unfold print, emit. by rewrite <- (assoc_L (++)).
Qed.

Lemma bulk_report_nil (out : outcome) :
  @bulk_report F out = [] ↔
  ∃ r, out = Returns r ∧ (status_code r = 200 ∨ status_code r = 201)%Z.
Proof.
  destruct out as [r|e]; simpl.
  - unfold in_200_201. destruct (Z.eqb_spec (status_code r) 200);
      destruct (Z.eqb_spec (status_code r) 201); simpl; split;
      try done; eauto; intros (? & [= <-] & [|]); done.
  - split; [done|]. by intros (? & ? & _).
Qed.

(** C8: for a list of [n > 0] documents the bulk writer posts, with the
    header [Content-Type: application/x-ndjson], a body of exactly [2n]
    lines, each ended by a line feed, in which the action line
    [{"index": {"_index": "prometheus_bridge"}}] comes before each document's
    JSON text, the documents in the order of the list; it prints no failure
    line exactly when the sink answers 200 or 201. The loader's [bulk_body]
    is the same text. *)
Theorem bulk_write_format docs tr :
  (∀ x, one_line (float_repr x)) → docs ≠ [] →
  let lines := ndjson_lines float_repr docs in
  let body := unlines lines in
  let req := POST (lit "http://localhost:9200/_bulk")
                  [(lit "Content-Type", lit "application/x-ndjson")]
                  (DataBody body) (Some 15%Z) in
  let out := net E tr req in
  length lines = (2 * length docs)%nat ∧
  Str.split_on 10 body = lines ++ [[]] ∧
  (∀ i doc, docs !! i = Some doc →
            lines !! (2 * i)%nat = Some action_line ∧
            lines !! (2 * i + 1)%nat = Some (Json.dumps float_repr doc)) ∧
  PromToEs.push_bulk_to_es float_repr E docs tr =
    (Ok tt, tr ++ [Http req out] ++ bulk_report out) ∧
  (@bulk_report F out = [] ↔
     ∃ r, out = Returns r ∧ (status_code r = 200 ∨ status_code r = 201)%Z) ∧
  LoadMock.bulk_body float_repr docs = body.
Proof.
  intros Hrepr Hne lines body req out. split_and!.
  - apply ndjson_lines_length.
  - by apply split_on_unlines, ndjson_lines_one_line.
  - apply ndjson_lines_lookup.
  - destruct docs as [|doc docs]; [done|]. apply push_bulk_run.
  - apply bulk_report_nil.
  - unfold LoadMock.bulk_body. rewrite bulk_lines_ndjson.
    apply join_nl_unlines. by destruct docs.
Qed.

(** C10: called with no documents, the bulk writer returns at once: no
    request is sent, nothing is printed, the trace is as it was. *)
Theorem push_bulk_empty tr :
  PromToEs.push_bulk_to_es float_repr E [] tr = (Ok tt, tr).
Proof. reflexivity. Qed.
End BulkFacts.

Lemma integral_repr_one_line z : one_line (integral_repr z).
Proof.
  unfold integral_repr. rewrite one_line_app. split; [apply dumps_int_one_line|].
  one_line_lit.
Qed.

Lemma bulk_write_format_witness :
  let lines := ndjson_lines integral_repr mock_points in
  let body := unlines lines in
  let req := POST (lit "http://localhost:9200/_bulk")
                  [(lit "Content-Type", lit "application/x-ndjson")]
                  (DataBody body) (Some 15%Z) in
  let out := net sink_accepts [] req in
  length lines = (2 * length mock_points)%nat ∧
  Str.split_on 10 body = lines ++ [[]] ∧
  (∀ i doc, mock_points !! i = Some doc →
            lines !! (2 * i)%nat = Some action_line ∧
            lines !! (2 * i + 1)%nat = Some (Json.dumps integral_repr doc)) ∧
  PromToEs.push_bulk_to_es integral_repr sink_accepts mock_points [] =
    (Ok tt, [] ++ [Http req out] ++ bulk_report out) ∧
  (@bulk_report Z out = [] ↔
     ∃ r, out = Returns r ∧ (status_code r = 200 ∨ status_code r = 201)%Z) ∧
  LoadMock.bulk_body integral_repr mock_points = body.
Proof.
  apply (bulk_write_format integral_repr sink_accepts mock_points []).
  - apply integral_repr_one_line.
  - discriminate.
Defined.

Example mock_body :
  unlines (ndjson_lines integral_repr [mock_point (lit "up") 1]) =
  dq "{'index': {'_index': 'prometheus_bridge'}}" ++ nl ++
  dq "{'@timestamp': '2025-01-01T00:00:00Z', 'metric': 'up', 'value': 1.0, 'labels': {'job': 'rag_system', 'instance': 'host.docker.internal:8000'}}" ++ nl.
Proof. vm_compute. reflexivity. Qed.

(** * Further properties *)

(** ** The parser: where entries come from, and texts put together *)

Section ParserMore.
Context {F : Type} (float : pystr → option F).

Lemma token_part (line ws1 name rest : pystr) :
  line = ws1 ++ name ++ rest → 123 ∉ line → 123 ∉ name.
Proof. intros -> Hno Hin. apply Hno. rewrite !elem_of_app. auto. Qed.

(** X1: the parser invents nothing: every entry of the mapping it returns
    is the sample of a well-formed line of the text, so every key is a
    non-empty string without whitespace and without [{]. *)
Theorem parse_entries_from_lines (text : pystr) (m : gmap pystr F) name v :
  parse_prometheus_metrics float text = Ok m →
  m !! name = Some v →
  (∃ line, line ∈ Str.splitlines text ∧ well_formed float line name v) ∧
  token name ∧ 123 ∉ name.
Proof.
  rewrite parse_lines. intros [= <-]. rewrite lookup_foldl_store, lookup_empty.
  destruct (last _) as [[n v']|] eqn:Hlast; [|done]. intros [= <-].
  apply last_Some_elem_of, list_elem_of_filter in Hlast as [Hn Hin].
  cbn [fst snd] in *. subst n.
  apply list_elem_of_omap in Hin as (line & Hline & Hentry).
  apply line_entry_well_formed in Hentry.
  assert (token name ∧ 123 ∉ name) as [? ?].
  { destruct Hentry as (ws1 & ws2 & ws3 & value & Hl & _ & _ & _ & _ & Hname & _ & _ & Hb & _).
    split; [done|]. by eapply token_part. }
  eauto 10.
Qed.

Lemma foldl_store_union (m : gmap pystr F) (es : list (pystr * F)) :
  foldl store m es = foldl store ∅ es ∪ m.
Proof.
  apply map_eq. intros name.
  rewrite lookup_union, !lookup_foldl_store, lookup_empty.
  destruct (last _) as [s|]; [by destruct (m !! name)|].
  by rewrite (left_id_L None (∪)).
Qed.
End ParserMore.

Lemma splitlines_nonempty (s : pystr) : s ≠ [] → Str.splitlines s ≠ [].
Proof.
  destruct s as [|c s]; [done|]. intros _. cbn [Str.splitlines].
  destruct (Str.is_linebreak c).
  - destruct s as [|c' s]; [done|]. by destruct (_ && _).
  - by destruct (Str.splitlines s).
Qed.

Lemma splitlines_lf (t : pystr) : Str.splitlines (10 :: t) = [] :: Str.splitlines t.
Proof.
  cbn [Str.splitlines]. change (Str.is_linebreak 10) with true.
  cbn match. by destruct t.
Qed.

Lemma splitlines_app_lf (s t : pystr) :
  Str.splitlines (s ++ nl ++ t) = Str.splitlines (s ++ nl) ++ Str.splitlines t.
Proof.
  unfold nl. remember (length s) as n eqn:Hn. revert s Hn.
  induction n as [n IH] using lt_wf_ind. intros s ->.
  destruct s as [|c s]; [cbn [app]; by rewrite !splitlines_lf|].
  cbn [app Str.splitlines]. destruct (Str.is_linebreak c) eqn:Hc.
  - destruct s as [|c' s]; cbn [app].
    + destruct (c =? 13) eqn:H13.
      * change (10 =? 10) with true. by cbn.
      * cbn [andb]. by rewrite !splitlines_lf.
    + destruct ((c =? 13) && (c' =? 10)).
      * pose proof (IH (length s) ltac:(simpl; lia) s eq_refl) as IHs.
        cbn [app] in IHs. by rewrite IHs.
      * pose proof (IH (length (c' :: s)) ltac:(simpl; lia) (c' :: s) eq_refl) as IHs.
        cbn [app] in IHs. by rewrite IHs.
  - pose proof (IH (length s) ltac:(simpl; lia) s eq_refl) as IHs.
    cbn [app] in IHs. rewrite IHs.
    destruct (Str.splitlines (s ++ [10])) as [|l ls] eqn:Hsp; [|done].
    by apply splitlines_nonempty in Hsp; [|destruct s].
Qed.

(** X2: parsing one text, ended by a line feed, followed by another gives
    the mapping of the second laid over the mapping of the first: a name in
    both keeps the value of the later text. *)
Theorem parse_texts_in_a_row {F} (float : pystr → option F) (t1 t2 : pystr) :
  ∃ m1 m2,
    parse_prometheus_metrics float (t1 ++ nl) = Ok m1 ∧
    parse_prometheus_metrics float t2 = Ok m2 ∧
    parse_prometheus_metrics float (t1 ++ nl ++ t2) = Ok (m2 ∪ m1).
Proof.
  eexists _, _. split; [apply parse_lines|]. split; [apply parse_lines|].
  rewrite parse_lines, splitlines_app_lf, omap_app, foldl_app.
  by rewrite foldl_store_union.
Qed.

(** ** The service name of a source, and the loop around it *)

Section SplitOnFacts.
Implicit Types (s a rest : pystr) (c : N).

Lemma split_on_parts c s : Forall (λ p, c ∉ p) (Str.split_on c s).
Proof.
  induction s as [|x s IH]; cbn [Str.split_on].
  - repeat constructor. apply not_elem_of_nil.
  - destruct (N.eqb_spec x c) as [->|Hne].
    + constructor; [apply not_elem_of_nil|done].
    + assert (c ≠ x) as Hcx by done.
      destruct (Str.split_on c s) as [|w ws].
      * repeat constructor. rewrite not_elem_of_cons. split; [done|apply not_elem_of_nil].
      * inversion IH as [|?? Hw Hws]; subst. constructor; [|done].
        rewrite not_elem_of_cons. by split.
Qed.

Lemma split_on_length c s : length (Str.split_on c s) = S (occurrences c s).
Proof.
  unfold occurrences. induction s as [|x s IH]; [done|].
  cbn [Str.split_on]. rewrite filter_cons.
  destruct (N.eqb_spec x c) as [->|Hne].
  - rewrite decide_True by done. simpl. by rewrite IH.
  - rewrite decide_False by done.
    destruct (Str.split_on c s) as [|w ws]; simpl in *; [done|lia].
Qed.

Lemma split_on_absent c a : c ∉ a → Str.split_on c a = [a].
Proof.
  induction a as [|x a IH]; [done|]. intros [Hx Ha]%not_elem_of_cons.
  cbn [Str.split_on]. apply not_eq_sym, N.eqb_neq in Hx. by rewrite Hx, IH.
Qed.

Lemma split_on_cut c a rest :
  c ∉ a → Str.split_on c (a ++ c :: rest) = a :: Str.split_on c rest.
Proof.
  induction a as [|x a IH]; intros Ha.
  - cbn [app Str.split_on]. by rewrite N.eqb_refl.
  - apply not_elem_of_cons in Ha as [Hx Ha]. cbn [app Str.split_on].
    apply not_eq_sym, N.eqb_neq in Hx. by rewrite Hx, IH.
Qed.

(** The first piece of a string that opens with [a]: [a] and what follows
    it up to the first separator. *)
Lemma split_on_first c a rest :
  c ∉ a →
  ∃ p tl, Str.split_on c (a ++ rest) = (a ++ p) :: tl ∧
          (rest = p ∨ ∃ t, rest = p ++ c :: t).
Proof.
  intros Ha. induction a as [|x a IH].
  - cbn [app]. clear Ha. induction rest as [|y rest (p & tl & Hsp & Hp)].
    + exists [], []. auto.
    + cbn [Str.split_on]. destruct (N.eqb_spec y c) as [->|Hne].
      * exists [], (Str.split_on c rest). split; [done|]. right. by exists rest.
      * rewrite Hsp. exists (y :: p), tl. split; [done|].
        destruct Hp as [->|[t ->]]; [by left|]. right. by exists t.
  - apply not_elem_of_cons in Ha as [Hx Ha].
    destruct (IH Ha) as (p & tl & Hsp & Hp). exists p, tl. split; [|done].
    cbn [app Str.split_on]. apply not_eq_sym, N.eqb_neq in Hx. by rewrite Hx, Hsp.
Qed.

Lemma split_on_index0 c a rest :
  c ∉ a → rest = [] ∨ head rest = Some c →
  index (Str.split_on c (a ++ rest)) 0 = Ok a.
Proof.
  intros Ha [->|Hrest].
  - by rewrite app_nil_r, split_on_absent.
  - destruct rest as [|y rest]; [done|]. injection Hrest as ->.
    by rewrite split_on_cut.
Qed.
End SplitOnFacts.

(** X3: for a URL [a:b:port] or [a:b:port/path] (as in
    [http://localhost:8000/metrics]) the service name is the port. *)
Theorem service_name_is_port (a b port rest : pystr) :
  58 ∉ a → 58 ∉ b → 58 ∉ port → 47 ∉ port →
  rest = [] ∨ head rest = Some 47 →
  Bridge.service_name_of (a ++ [58] ++ b ++ [58] ++ port ++ rest) = Ok port.
Proof.
  intros Ha Hb Hport Hslash Hrest. unfold Bridge.service_name_of.
  cbn [app]. rewrite !split_on_cut by done.
  destruct (split_on_first 58 port rest Hport) as (p & tl & Hsp & Hp).
  rewrite Hsp. cbn. apply split_on_index0; [done|].
  destruct Hrest as [->|Hrest].
  - left. destruct Hp as [<-|[t Ht]]; [done|]. by destruct p.
  - destruct rest as [|y rest]; [done|]. injection Hrest as ->.
    destruct p as [|z p]; [|right].
    + destruct Hp as [|[t [= ?]]]; done.
    + by destruct Hp as [[= -> _]|[t [= -> _]]].
Qed.

(** X4: the service name can be read off a URL exactly when the URL holds
    at least two colons; with fewer, the expression raises [IndexError], and
    it raises nothing else. A name read off holds neither [:] nor [/]. *)
Theorem service_name_needs_two_colons (url : pystr) :
  match Bridge.service_name_of url with
  | Ok svc => (2 ≤ occurrences 58 url)%nat ∧ (58 ∉ svc) ∧ (47 ∉ svc)
  | Raise e => e = IndexError ∧ (occurrences 58 url < 2)%nat
  end.
Proof.
  unfold Bridge.service_name_of, index.
  pose proof (split_on_length 58 url) as Hlen.
  pose proof (split_on_parts 58 url) as Hparts.
  destruct (Str.split_on 58 url !! 2%nat) as [p|] eqn:Hp; cbn.
  - pose proof (split_on_length 47 p) as Hlen'.
    pose proof (split_on_parts 47 p) as Hparts'.
    destruct (Str.split_on 47 p) as [|svc tl] eqn:Hsvc; [done|]. cbn.
    apply lookup_lt_Some in Hp as Hlt. split; [lia|].
    inversion Hparts' as [|?? Hno _]; subst. split; [|done].
    intros Hin. rewrite Forall_lookup in Hparts. apply (Hparts _ _ Hp).
    assert (svc `prefix_of` p) as [k ->]; [|by apply elem_of_app; left].
    destruct (split_on_first 47 [] p) as (q & tl' & Hsp & Hq);
      [apply not_elem_of_nil|].
    cbn [app] in Hsp. rewrite Hsvc in Hsp. injection Hsp as -> _.
    destruct Hq as [->|[t ->]]; [reflexivity|by eexists].
  - apply lookup_ge_None in Hp. split; [done|lia].
Qed.

Section LoopFacts.
Context {F : Type} (float : pystr → option F) (E : env F).
Implicit Types (url svc : pystr) (tr new : list (event F)).

Lemma gets_app tr1 tr2 : gets (tr1 ++ tr2) = gets tr1 ++ gets tr2.
Proof. apply omap_app. Qed.

Lemma for_each_app {A} (body : A → io F unit) (xs ys : list A) tr :
  for_each body (xs ++ ys) tr =
    match for_each body xs tr with
    | (Ok _, tr') => for_each body ys tr'
    | (Raise e, tr') => (Raise e, tr')
    end.
Proof.
  revert tr. induction xs as [|x xs IH]; intros tr; [done|].
  cbn [app for_each]. unfold mbind, io_bind.
  destruct (body x tr) as [[[]|e] tr']; [apply IH|done].
Qed.

Lemma service_name_short url :
  (occurrences 58 url < 2)%nat → Bridge.service_name_of url = Raise IndexError.
Proof.
  intros Hfew. unfold Bridge.service_name_of, index.
  rewrite (proj2 (lookup_ge_None _ _)); [done|].
  rewrite split_on_length. lia.
Qed.

(** A poll of a source with a readable name: one GET, no sleep, and a post
    of that source's document exactly when the GET was answered with 200. *)
Lemma poll_shape url svc tr :
  Bridge.service_name_of url = Ok svc →
  ∃ new out,
    Bridge.poll float E url tr = (Ok tt, tr ++ new) ∧
    gets new = [(url, out)] ∧
    sleeps new = [] ∧
    length (posts new) = (if answered_200 out then 1 else 0)%nat ∧
    Forall (λ p, ∃ doc, p.1 = sink_request doc ∧ service doc = svc) (posts new).
Proof.
  intros Hsvc. rewrite (poll_run _ _ _ svc) by done.
  destruct (net E tr (fetch_request url)) as [r|e] eqn:Hnet.
  - destruct (status_code r =? 200)%Z eqn:Hr.
    + rewrite push_run, <- (assoc_L (++)).
      eexists _, (Returns r). split; [done|]. cbn. rewrite Hr.
      split_and!; try done. repeat constructor. by eexists.
    + eexists _, (Returns r). split; [done|]. cbn. rewrite Hr.
      split_and!; try done.
  - eexists _, (Fails e). split; [done|]. cbn. split_and!; done.
Qed.

Lemma polls_shape (endpoints : list pystr) tr :
  Forall (λ url, ∃ svc, Bridge.service_name_of url = Ok svc) endpoints →
  ∃ new,
    for_each (Bridge.poll float E) endpoints tr = (Ok tt, tr ++ new) ∧
    (gets new).*1 = endpoints ∧
    sleeps new = [] ∧
    length (posts new) = length (filter (λ g, answered_200 g.2) (gets new)) ∧
    Forall (of_sources endpoints) (posts new).
Proof.
  intros Hall. revert tr.
  induction Hall as [|url urls [svc Hsvc] _ IH]; intros tr.
  - exists []. rewrite app_nil_r. by split_and!.
  - destruct (poll_shape url svc tr Hsvc) as (new1 & out & H1 & Hg1 & Hs1 & Hp1 & Hd1).
    destruct (IH (tr ++ new1)) as (new2 & H2 & Hg2 & Hs2 & Hp2 & Hd2).
    exists (new1 ++ new2). cbn [for_each]. unfold mbind, io_bind.
    rewrite H1. fold (for_each (Bridge.poll float E) urls). rewrite H2.
    rewrite gets_app, sleeps_app, posts_app, Hg1, Hs1, Hs2, fmap_app, Hg2.
    rewrite filter_app, !length_app, Hp1, Hp2. split_and!.
    + by rewrite <- (assoc_L (++)).
    + done.
    + done.
    + f_equal. rewrite filter_cons, filter_nil. cbn [snd].
      by destruct (answered_200 out).
    + apply Forall_app. split.
      * eapply Forall_impl; [exact Hd1|]. intros p (doc & ? & <-).
        exists doc, url. split_and!; [done|by left|done].
      * eapply Forall_impl; [exact Hd2|].
        intros p (doc & u & ? & ? & ?). exists doc, u. split_and!; [done|by right|done].
Qed.

(** X5: a tick over sources of which one has a URL with fewer than two
    colons dies there with [IndexError]: the sources before it have been
    polled, that source and the ones after it are not fetched, and the tick
    does not reach its sleep. *)
Theorem tick_stops_at_bad_url (before after : list pystr) (bad : pystr) tr :
  Forall (λ url, ∃ svc, Bridge.service_name_of url = Ok svc) before →
  (occurrences 58 bad < 2)%nat →
  ∃ new,
    Bridge.tick_over float E (before ++ bad :: after) tr = (Raise IndexError, tr ++ new) ∧
    (gets new).*1 = before ∧
    sleeps new = [].
Proof.
  intros Hbefore Hbad%service_name_short.
  destruct (polls_shape before tr Hbefore) as (new & Hrun & Hgets & Hsleeps & _).
  exists new. split; [|done].
  unfold Bridge.tick_over, mbind at 1, io_bind at 1.
  rewrite for_each_app, Hrun. cbn [for_each]. unfold mbind at 1, io_bind at 1.
  unfold Bridge.poll. rewrite Hbad. done.
Qed.

Lemma configured_names :
  Forall (λ url, ∃ svc, Bridge.service_name_of url = Ok svc) Bridge.PROM_ENDPOINTS.
Proof. repeat constructor; eexists; vm_compute; reflexivity. Qed.

Lemma configured_posts (p : request F * outcome) :
  of_sources Bridge.PROM_ENDPOINTS p →
  ∃ doc, p.1 = sink_request doc ∧
         (service doc = lit "8000" ∨ service doc = lit "8011").
Proof.
  intros (doc & url & Hp & Hin & Hname). exists doc. split; [done|].
  unfold Bridge.PROM_ENDPOINTS in Hin.
  assert (Bridge.service_name_of (lit "http://localhost:8000/metrics") = Ok (lit "8000"))
    as H8000 by (vm_compute; reflexivity).
  assert (Bridge.service_name_of (lit "http://localhost:8011/metrics") = Ok (lit "8011"))
    as H8011 by (vm_compute; reflexivity).
  apply elem_of_cons in Hin as [->|Hin]; [left|right].
  - rewrite H8000 in Hname. by injection Hname.
  - apply list_elem_of_singleton in Hin as ->.
    rewrite H8011 in Hname. by injection Hname.
Qed.

Lemma ticks_shape (n : nat) tr :
  ∃ new,
    Bridge.ticks float E n tr = (Ok tt, tr ++ new) ∧
    (gets new).*1 = mjoin (replicate n Bridge.PROM_ENDPOINTS) ∧
    sleeps new = replicate n 10%Q ∧
    length (posts new) = length (filter (λ g, answered_200 g.2) (gets new)) ∧
    Forall (of_sources Bridge.PROM_ENDPOINTS) (posts new).
Proof.
  revert tr. induction n as [|n IH]; intros tr.
  - exists []. rewrite app_nil_r. by split_and!.
  - destruct (polls_shape Bridge.PROM_ENDPOINTS tr configured_names)
      as (new1 & H1 & Hg1 & Hs1 & Hp1 & Hd1).
    destruct (IH (tr ++ new1 ++ [Slept 10])) as (new2 & H2 & Hg2 & Hs2 & Hp2 & Hd2).
    exists ((new1 ++ [Slept 10]) ++ new2).
    cbn [Bridge.ticks]. unfold Bridge.tick, Bridge.tick_over.
    unfold mbind, io_bind. rewrite H1.
    unfold sleep, emit. change (Qle_bool 0 10) with true. cbn beta iota.
    fold (Bridge.ticks float E n). rewrite <- (assoc_L (++)), H2.
    rewrite !gets_app, !sleeps_app, !posts_app, !fmap_app, !filter_app, !length_app.
    rewrite Hg1, Hg2, Hs1, Hs2, Hp1, Hp2. cbn. split_and!.
    + by rewrite <- !(assoc_L (++)).
    + done.
    + done.
    + lia.
    + rewrite app_nil_r. by apply Forall_app.
Qed.

(** X6: however the network behaves, the first [n] turns of [main] run
    without an exception; after the banner they fetch the two configured
    sources in their order once a turn, sleep 10 once a turn, and post
    exactly one document, of the source at port 8000 or 8011, for each
    fetch that was answered with status 200. *)
Theorem main_loop_shape (n : nat) tr :
  ∃ new,
    Bridge.main float E n tr = (Ok tt, tr ++ Printed BridgeRunning :: new) ∧
    (gets new).*1 = mjoin (replicate n Bridge.PROM_ENDPOINTS) ∧
    sleeps new = replicate n 10%Q ∧
    length (posts new) = length (filter (λ g, answered_200 g.2) (gets new)) ∧
    Forall (λ p, ∃ doc, p.1 = sink_request doc ∧
                 (service doc = lit "8000" ∨ service doc = lit "8011"))
           (posts new).
Proof.
  destruct (ticks_shape n (tr ++ [Printed BridgeRunning]))
    as (new & Hrun & Hgets & Hsleeps & Hposts & Hdocs).
  exists new. unfold Bridge.main, mbind, io_bind, print, emit.
  rewrite Hrun, <- (assoc_L (++)). split_and!; try done.
  eapply Forall_impl; [exact Hdocs|]. apply configured_posts.
Qed.
End LoopFacts.

(** ** The retry helper, attempt by attempt *)

Section RetryMore.
Context {F : Type} (float_repr : F → pystr) (E : env F).
Implicit Types (url : pystr) (payload : json F) (backoff : Q) (tr : list (event F)).

Lemma retry_loop_schedule url payload backoff (k n : nat) last_exc tr :
  (0 <= backoff)%Q →
  let req := retry_request float_repr url payload in
  let run := RagQuery.retry_loop float_repr E url payload backoff
               (Z.of_nat <$> seq k n) last_exc tr in
  ∃ es : list exn,
    (run = (Raise (default TypeError (last (option_list last_exc ++ es))),
            tr ++ failed_attempts req backoff (Z.of_nat k) es) ∧
     length es = n) ∨
    (∃ r, run = (Ok r, tr ++ failed_attempts req backoff (Z.of_nat k) es ++
                             [Http req (Returns r)]) ∧
          (length es < n)%nat).
Proof.
  intros Hb req. revert k last_exc tr. induction n as [|n IH]; intros k last_exc tr run.
  - exists []. left. unfold run. cbn [seq fmap list_fmap].
    rewrite retry_loop_nil, !app_nil_r. by destruct last_exc.
  - unfold run. cbn [seq fmap list_fmap].
    destruct (net E tr req) as [r|e] eqn:Hnet.
    + exists []. right. exists r.
      rewrite (retry_loop_returns _ _ _ _ _ _ _ _ _ r) by done.
      split; [done|simpl; lia].
    + rewrite (retry_loop_fails _ _ _ _ _ _ _ _ _ e);
        [|done|apply Qle_bool_iff, pause_nonneg; [done|lia]].
      destruct (IH (S k) (Some e)
                  (tr ++ [Http req (Fails e);
                          Slept (Float.mul backoff (Float.of_int (Z.of_nat k + 1)))]))
        as [es [[Hrun Hlen]|(r & Hrun & Hlen)]].
      * exists (e :: es). left. fold req. change (list_fmap _ _ ?f ?l) with (f <$> l).
        rewrite Hrun. split; [|simpl; lia]. f_equal.
        -- cbn [option_list app]. by rewrite (last_app_cons (option_list last_exc)).
        -- rewrite <- (assoc_L (++)). cbn [app failed_attempts].
           by rewrite Nat2Z.inj_succ, <- Z.add_1_r.
      * exists (e :: es). right. exists r. fold req.
        change (list_fmap _ _ ?f ?l) with (f <$> l).
        rewrite Hrun. split; [|simpl; lia]. f_equal.
        rewrite <- (assoc_L (++)). cbn [app failed_attempts].
        by rewrite Nat2Z.inj_succ, <- Z.add_1_r.
Qed.

(** X7: with a backoff that is not negative, a run of the helper is a row
    of failed attempts, the [k]-th followed by a sleep of the float product
    [backoff * k] (after the last one too), every attempt the same request;
    it ends with
    the first attempt that returns, whose response it returns, or, when all
    [attempts] have raised, by raising the last attempt's exception. *)
Theorem retry_schedule url payload (attempts : Z) backoff tr :
  (0 <= backoff)%Q →
  let req := retry_request float_repr url payload in
  let run := RagQuery._post_json_with_retries float_repr E url payload attempts backoff tr in
  ∃ es : list exn,
    (run = (Raise (default TypeError (last es)),
            tr ++ failed_attempts req backoff 0 es) ∧
     Z.of_nat (length es) = Z.max 0 attempts) ∨
    (∃ r, run = (Ok r, tr ++ failed_attempts req backoff 0 es ++ [Http req (Returns r)]) ∧
          (Z.of_nat (length es) < attempts)%Z).
Proof.
  intros Hb req run.
  destruct (retry_loop_schedule url payload backoff 0 (Z.to_nat attempts) None tr Hb)
    as [es [[Hrun Hlen]|(r & Hrun & Hlen)]]; exists es; [left|right; exists r].
  - split; [exact Hrun|lia].
  - split; [exact Hrun|lia].
Qed.

(** X8: with a ceiling of zero or less the helper sends nothing and raises
    [TypeError], the outcome of [raise None]. *)
Theorem retry_without_attempts url payload (attempts : Z) backoff tr :
  (attempts ≤ 0)%Z →
  RagQuery._post_json_with_retries float_repr E url payload attempts backoff tr =
    (Raise TypeError, tr).
Proof.
  intros Hn. unfold RagQuery._post_json_with_retries, range.
  replace (Z.to_nat attempts) with 0%nat by lia. apply retry_loop_nil.
Qed.

(** X9: with a negative backoff (a float) the helper makes one attempt only: a
    response is returned, and an exception of the call is lost, for the
    sleep that follows raises [ValueError] in its place. *)
Theorem retry_negative_backoff url payload (attempts : Z) backoff tr :
  (1 ≤ attempts)%Z → Float.is_float backoff → (backoff < 0)%Q →
  let req := retry_request float_repr url payload in
  RagQuery._post_json_with_retries float_repr E url payload attempts backoff tr =
    match net E tr req with
    | Returns r => (Ok r, tr ++ [Http req (Returns r)])
    | Fails e => (Raise ValueError, tr ++ [Http req (Fails e)])
    end.
Proof.
  intros Hn Hfloat Hb req. unfold RagQuery._post_json_with_retries, range.
  destruct (Z.to_nat attempts) as [|n] eqn:Hnat; [lia|]. cbn [seq fmap list_fmap].
  destruct (net E tr req) as [r|e] eqn:Hnet.
  - by apply retry_loop_returns.
  - apply retry_loop_sleep_raises; [done|].
    change (Z.of_nat 0 + 1)%Z with 1%Z.
    destruct (Qle_bool 0 (Float.mul backoff (Float.of_int 1))) eqn:Hle; [|done].
    apply Qle_bool_iff in Hle. rewrite (mul_one _ Hfloat) in Hle. lra.
Qed.
End RetryMore.

(** ** The bulk body on the wire *)

Section Printable.
Implicit Types (s : pystr) (c : N).

Lemma printable_check s :
  forallb (λ c, (32 <=? c) && (c <=? 126)) s = true → printable s.
Proof.
  unfold printable. induction s as [|c s IH]; [constructor|].
  cbn [forallb]. rewrite !andb_true_iff, N.leb_le, N.leb_le.
  intros [[? ?] ?]. constructor; auto.
Qed.

Lemma printable_app s1 s2 : printable (s1 ++ s2) ↔ printable s1 ∧ printable s2.
Proof. apply Forall_app. Qed.

Lemma hexdigit_printable n : 32 ≤ Json.hexdigit (n mod 16) ≤ 126.
Proof.
  pose proof (N.mod_upper_bound n 16 ltac:(done)) as Hd.
  generalize dependent (n mod 16). intros d Hd. unfold Json.hexdigit.
  destruct (N.ltb_spec d 10); lia.
Qed.

Lemma u_escape_printable n : printable (Json.u_escape n).
Proof.
  unfold Json.u_escape, Json.hex4, printable. cbn [app].
  repeat constructor; try lia; apply hexdigit_printable.
Qed.

Lemma escape_printable c : printable (Json.escape c).
Proof.
  unfold Json.escape.
  repeat match goal with
         | |- context [if ?b then _ else _] => destruct b eqn:?
         end;
    try (apply printable_check; reflexivity);
    rewrite ?printable_app; auto using u_escape_printable.
  match goal with
  | H : (_ <=? _) && (_ <=? _) = true |- _ =>
      apply andb_true_iff in H as [?%N.leb_le ?%N.leb_le]
  end.
  by repeat constructor.
Qed.

Lemma dumps_str_printable s : printable (Json.dumps_str s).
Proof.
  unfold Json.dumps_str. rewrite !printable_app.
  split; [by apply printable_check|]. split; [|by apply printable_check].
  induction s as [|c s IH]; [constructor|].
  cbn. rewrite printable_app. split; [apply escape_printable|done].
Qed.

Lemma uint_printable (d : Decimal.uint) : printable (lit (NilEmpty.string_of_uint d)).
Proof.
  induction d; cbn [NilEmpty.string_of_uint]; [constructor|..];
    (change (lit (String ?a ?r)) with (N_of_ascii a :: lit r);
     constructor; [by vm_compute|assumption]).
Qed.

Lemma dumps_int_printable z : printable (Json.dumps_int z).
Proof.
  unfold Json.dumps_int, NilZero.string_of_int.
  assert (∀ d, printable (lit (NilZero.string_of_uint d))) as Hu.
  { intros d. unfold NilZero.string_of_uint.
    destruct d; try apply uint_printable. by apply printable_check. }
  destruct (Z.to_int z); [apply Hu|].
  change (lit (String ?a ?r)) with (N_of_ascii a :: lit r).
  constructor; [by vm_compute|apply Hu].
Qed.

Lemma join_printable sep (parts : list pystr) :
  printable sep → Forall printable parts → printable (Str.join sep parts).
Proof.
  intros Hsep. induction 1 as [|p ps Hp Hps IH]; [constructor|].
  destruct ps as [|p' ps]; [done|].
  change (Str.join sep (p :: p' :: ps)) with (p ++ sep ++ Str.join sep (p' :: ps)).
  rewrite !printable_app. auto.
Qed.
End Printable.

Section BulkPrintable.
Context {F : Type} (float_repr : F → pystr).

Lemma dumps_printable (j : json F) :
  (∀ x, printable (float_repr x)) → printable (Json.dumps float_repr j).
Proof.
  intros Hrepr. induction j as [ |b|z|x|s|items IH|fields IH] using json_nested_ind;
    cbn [Json.dumps].
  - by apply printable_check.
  - destruct b; by apply printable_check.
  - apply dumps_int_printable.
  - apply Hrepr.
  - apply dumps_str_printable.
  - rewrite !printable_app. split; [by apply printable_check|].
    split; [|by apply printable_check].
    apply join_printable; [by apply printable_check|]. by apply Forall_fmap.
  - rewrite !printable_app. split; [by apply printable_check|].
    split; [|by apply printable_check].
    apply join_printable; [by apply printable_check|].
    apply Forall_fmap. eapply Forall_impl; [exact IH|].
    intros [k v] Hv. simpl in Hv. unfold compose. cbn [fst snd].
    rewrite !printable_app.
    split; [apply dumps_str_printable|]. split; [by apply printable_check|done].
Qed.

Lemma unlines_wire (lines : list pystr) :
  Forall printable lines →
  Forall (λ c, c = 10 ∨ 32 ≤ c ≤ 126) (unlines lines).
Proof.
  induction 1 as [|l lines Hl _ IH]; [constructor|].
  rewrite unlines_cons. apply Forall_app. split.
  - eapply Forall_impl; [exact Hl|]. auto.
  - constructor; [by left|done].
Qed.

(** X10: whatever the documents hold, the body [push_bulk_to_es] builds,
    like the loader's [bulk_body], is made of printable ASCII and line feeds
    only: [json.dumps] escapes everything else, so the text can always be
    encoded for the wire. *)
Theorem bulk_body_is_ascii (docs : list (json F)) :
  (∀ x, printable (float_repr x)) →
  Forall (λ c, c = 10 ∨ 32 ≤ c ≤ 126) (PromToEs.bulk_data_of float_repr docs) ∧
  Forall (λ c, c = 10 ∨ 32 ≤ c ≤ 126) (LoadMock.bulk_body float_repr docs).
Proof.
  intros Hrepr.
  assert (Forall printable (ndjson_lines float_repr docs)) as Hlines.
  { induction docs as [|doc docs IH]; [constructor|].
    rewrite ndjson_lines_cons.
    constructor; [by apply printable_check|]. constructor; [|done].
    by apply dumps_printable. }
  split.
  - rewrite bulk_data_unlines. by apply unlines_wire.
  - unfold LoadMock.bulk_body. rewrite bulk_lines_ndjson.
    destruct docs as [|doc docs]; [by repeat constructor|].
    rewrite join_nl_unlines by done. by apply unlines_wire.
Qed.
End BulkPrintable.

(** ** The chunker *)

Section ChunkFacts.
Implicit Types (s : pystr) (ws : list pystr).

Lemma split_tokens s : Forall token (Str.split s).
Proof.
  induction s as [|c s IH]; [constructor|]. cbn [Str.split].
  destruct (Str.isspace c) eqn:Hc; [done|].
  assert (token [c]) as Hone by (split; [done|by repeat constructor]).
  destruct s as [|c' s]; [by repeat constructor|].
  destruct (Str.isspace c') eqn:Hc'; [by constructor|].
  destruct (Str.split (c' :: s)) as [|w ws]; [by repeat constructor|].
  inversion IH as [|?? [_ Hw] Hws]; subst. constructor; [|done].
  split; [done|by constructor].
Qed.

Lemma split_join_tokens ws :
  Forall token ws → Str.split (Str.join (lit " ") ws) = ws.
Proof.
  induction 1 as [|w ws Hw Hws IH]; [done|].
  destruct ws as [|w' ws].
  - cbn [Str.join]. rewrite <- (app_nil_r w) at 1.
    by rewrite split_token_app.
  - change (Str.join (lit " ") (w :: w' :: ws))
      with (w ++ 32 :: Str.join (lit " ") (w' :: ws)).
    rewrite split_token_app by done.
    change (32 :: ?r) with ([32] ++ r).
    rewrite split_blank_app by (by repeat constructor). by rewrite IH.
Qed.

Lemma take_min_length {A} (l : list A) (n : nat) :
  take (Nat.min (length l - 0) n) l = take n l.
Proof.
  destruct (decide (n ≤ length l)%nat).
  - f_equal. lia.
  - rewrite (take_ge l n) by lia. apply take_ge. lia.
Qed.

Lemma slice_take_drop {A} (l : list A) (lo n : nat) :
  slice (Z.of_nat lo) (Z.of_nat lo + Z.of_nat n) l = take n (drop lo l).
Proof.
  unfold slice. set (len := Z.of_nat (length l)).
  destruct (Z.ltb_spec (Z.of_nat lo) 0); [lia|].
  destruct (Z.ltb_spec (Z.of_nat lo + Z.of_nat n) 0); [lia|].
  destruct (decide (lo ≤ length l)%nat) as [Hlo|Hlo].
  - replace (Z.to_nat (Z.min len (Z.of_nat lo))) with lo by lia.
    destruct (decide (n ≤ length l - lo)%nat).
    + f_equal. lia.
    + rewrite (take_ge _ n) by (rewrite length_drop; lia).
      apply take_ge. rewrite length_drop. lia.
  - rewrite !(drop_ge l) by lia. by rewrite !take_nil.
Qed.

(** The pieces the loop cuts: [count] pieces of [size] words each. *)
Lemma pieces_concat {A} (size count : nat) (l : list A) :
  (length l ≤ count * size)%nat →
  mjoin ((λ k, take size (drop (k * size) l)) <$> seq 0 count) = l.
Proof.
  revert l. induction count as [|count IH]; intros l Hlen.
  - destruct l; [done|simpl in Hlen; lia].
  - change (seq 0 (S count)) with (0%nat :: seq 1 count).
    rewrite <- fmap_S_seq, fmap_cons, <- list_fmap_compose.
    transitivity (take size l ++ drop size l); [|apply take_drop].
    change (mjoin (?x :: ?xs)) with (x ++ mjoin xs). f_equal.
    etransitivity; [|apply (IH (drop size l)); rewrite length_drop; lia].
    f_equal. apply list_fmap_ext. intros _ k _. unfold compose.
    by rewrite drop_drop.
Qed.

Lemma chunk_count_bounds (n : nat) (size : Z) :
  (0 < size)%Z →
  let count := Z.to_nat ((Z.of_nat n + size - 1) / size) in
  (n ≤ count * Z.to_nat size)%nat ∧
  ∀ k, (k < count)%nat → (k * Z.to_nat size < n)%nat.
Proof.
  intros Hsize count.
  pose proof (Z.mul_div_le (Z.of_nat n + size - 1) size Hsize) as Hle.
  pose proof (Z.mul_succ_div_gt (Z.of_nat n + size - 1) size Hsize) as Hgt.
  assert (0 ≤ (Z.of_nat n + size - 1) / size)%Z as Hq
    by (apply Z.div_pos; lia).
  unfold count. set (q := ((Z.of_nat n + size - 1) / size)%Z) in *.
  split; [nia|]. intros k Hk. nia.
Qed.

(** The chunks, as pieces of the list of words. *)
Lemma chunk_text_pieces text (size : Z) :
  (0 < size)%Z →
  let words := Str.split text in
  let count := Z.to_nat ((Z.of_nat (length words) + size - 1) / size) in
  RagIngest.chunk_text text size =
    Ok ((λ k, Str.join (lit " ") (take (Z.to_nat size) (drop (k * Z.to_nat size) words)))
          <$> seq 0 count).
Proof.
  intros Hsize words count. unfold RagIngest.chunk_text, range3. fold words.
  destruct (Z.eqb_spec size 0); [lia|]. destruct (Z.ltb_spec 0 size); [|lia].
  cbn. f_equal. rewrite <- list_fmap_compose.
  replace (Z.of_nat (length words) - 0 + size - 1)%Z
    with (Z.of_nat (length words) + size - 1)%Z by lia.
  apply list_fmap_ext. intros _ k _. unfold compose. f_equal.
  replace (0 + Z.of_nat k * size)%Z with (Z.of_nat (k * Z.to_nat size)) by lia.
  pose proof (slice_take_drop words (k * Z.to_nat size) (Z.to_nat size)) as Hslice.
  by rewrite Z2Nat.id in Hslice by lia.
Qed.

Lemma piece_tokens text (size k : nat) :
  Forall token (take size (drop (k * size) (Str.split text))).
Proof. apply Forall_take, Forall_drop, split_tokens. Qed.

(** X11: for a positive size the chunks hold the words of the text, all of
    them, once each and in their order; within a chunk the words are set
    apart by single spaces, with no other whitespace left. *)
Theorem chunks_keep_words text (size : Z) :
  (0 < size)%Z →
  ∃ chunks,
    RagIngest.chunk_text text size = Ok chunks ∧
    mjoin (Str.split <$> chunks) = Str.split text ∧
    Forall (λ c, Str.join (lit " ") (Str.split c) = c) chunks.
Proof.
  intros Hsize. eexists. split; [by apply chunk_text_pieces|]. split.
  - rewrite <- list_fmap_compose.
    rewrite <- (pieces_concat (Z.to_nat size)
                  (Z.to_nat ((Z.of_nat (length (Str.split text)) + size - 1) / size))
                  (Str.split text)) at 2
      by (by apply chunk_count_bounds).
    f_equal. apply list_fmap_ext. intros _ k _. unfold compose.
    apply split_join_tokens, piece_tokens.
  - apply Forall_fmap, Forall_forall. intros k _. unfold compose.
    by rewrite split_join_tokens by apply piece_tokens.
Qed.

(** X12: for a positive size a text of [n] words gives [n / size] chunks,
    rounded up; every chunk has at least one word and at most [size], and
    every chunk but the last has exactly [size]. *)
Theorem chunk_sizes text (size : Z) :
  (0 < size)%Z →
  ∃ chunks,
    RagIngest.chunk_text text size = Ok chunks ∧
    Z.of_nat (length chunks) =
      ((Z.of_nat (length (Str.split text)) + size - 1) / size)%Z ∧
    Forall (λ c, (1 ≤ Z.of_nat (length (Str.split c)) ≤ size)%Z) chunks ∧
    ∀ i c, chunks !! i = Some c → (S i < length chunks)%nat →
           Z.of_nat (length (Str.split c)) = size.
Proof.
  intros Hsize. eexists. split; [by apply chunk_text_pieces|].
  pose proof (chunk_count_bounds (length (Str.split text)) size Hsize) as [Hall Hlt].
  cbn zeta in Hall, Hlt.
  set (count := Z.to_nat ((Z.of_nat (length (Str.split text)) + size - 1) / size)) in *.
  rewrite length_fmap, length_seq. split; [|split].
  - unfold count. rewrite Z2Nat.id; [done|]. apply Z.div_pos; lia.
  - apply Forall_fmap, Forall_forall. intros k Hk%elem_of_seq. unfold compose.
    rewrite split_join_tokens by apply piece_tokens.
    rewrite length_take, length_drop. specialize (Hlt k ltac:(lia)). lia.
  - intros i c Hc Hi. apply list_lookup_fmap_Some in Hc as (k & -> & Hk).
    apply lookup_seq in Hk as [-> Hk]. cbn [Nat.add].
    rewrite split_join_tokens by apply piece_tokens.
    rewrite length_take, length_drop. specialize (Hlt (S i) ltac:(lia)).
    cbn [Nat.mul] in Hlt. lia.
Qed.

(** X13: a size of zero makes the chunker raise [ValueError], the step of
    its [range] being zero; with a negative size it yields no chunk at all,
    whatever the text; and a text of whitespace only yields none. *)
Theorem chunk_edge_cases text (size : Z) :
  (size = 0%Z → RagIngest.chunk_text text size = Raise ValueError) ∧
  ((size < 0)%Z → RagIngest.chunk_text text size = Ok []) ∧
  (size ≠ 0%Z → blank text → RagIngest.chunk_text text size = Ok []).
Proof.
  unfold RagIngest.chunk_text, range3. split; [|split].
  - by intros ->.
  - intros Hneg. destruct (Z.eqb_spec size 0); [lia|].
    destruct (Z.ltb_spec 0 size); [lia|]. cbn.
    replace (Z.to_nat _) with 0%nat; [done|].
    symmetry. apply Z2Nat.nonpos.
    apply Z.lt_succ_r, Z.div_lt_upper_bound; lia.
  - intros Hne Hblank%split_blank. rewrite Hblank. cbn [length].
    destruct (Z.eqb_spec size 0); [done|]. cbn.
    replace (Z.to_nat _) with 0%nat; [done|]. symmetry. apply Z2Nat.nonpos.
    destruct (Z.ltb_spec 0 size).
    + rewrite Z.div_small; lia.
    + apply Z.lt_succ_r, Z.div_lt_upper_bound; lia.
Qed.
End ChunkFacts.

(** ** The query service's index check and logger *)

Section ServiceFacts.
Context {F : Type} (W : Service.world F).
Implicit Types (st : list (Service.step F)).

Lemma base_events_app st1 st2 :
  Service.base_events (st1 ++ st2) = Service.base_events st1 ++ Service.base_events st2.
Proof. apply omap_app. Qed.

Lemma calls_app st1 st2 :
  Service.calls (st1 ++ st2) = Service.calls st1 ++ Service.calls st2.
Proof. apply omap_app. Qed.

Lemma notes_app st1 st2 :
  Service.notes (st1 ++ st2) = Service.notes st1 ++ Service.notes st2.
Proof. apply omap_app. Qed.

Lemma base_events_Base (tr : list (event F)) :
  Service.base_events (Service.Base <$> tr) = tr.
Proof. induction tr as [|ev tr IH]; [done|]. cbn. by f_equal. Qed.

Lemma calls_Base (tr : list (event F)) : Service.calls (Service.Base <$> tr) = [].
Proof. by induction tr. Qed.

Lemma notes_Base (tr : list (event F)) : Service.notes (Service.Base <$> tr) = [].
Proof. by induction tr. Qed.

(** *** The index check *)

(** What the index check does, by the answers it meets. *)
Lemma ensure_run timeout st :
  let get := Service.Get RagQuery.ELASTIC_INDEX_URL timeout in
  let put := Service.Put RagQuery.ELASTIC_INDEX_URL Service.DEFAULT_MAPPING timeout in
  let out := Service.answers W st get in
  let out' := Service.answers W (st ++ [Service.Called get out]) put in
  Service.ensure_elastic_index W timeout st =
    match out with
    | Returns r =>
        if (status_code r =? 200)%Z then
          (Ok true, st ++ [Service.Called get out;
                           Service.Noted (Service.IndexExists RagQuery.ELASTIC_INDEX)])
        else
          match out' with
          | Returns r' =>
              (Ok (in_200_201 (status_code r')),
               st ++ [Service.Called get out; Service.Called put out';
                      Service.Noted
                        (if in_200_201 (status_code r')
                         then Service.IndexCreated RagQuery.ELASTIC_INDEX
                         else Service.IndexCreateFailed RagQuery.ELASTIC_INDEX
                                (status_code r') (text r'))])
          | Fails e' =>
              if Service.is_request_exception e' then
                (Ok false,
                 st ++ [Service.Called get out; Service.Called put out';
                        Service.Noted (Service.IndexUnreachable RagQuery.ELASTIC_INDEX e')])
              else (Raise e', st ++ [Service.Called get out; Service.Called put out'])
          end
    | Fails e =>
        if Service.is_request_exception e then
          match out' with
          | Returns r' =>
              (Ok (in_200_201 (status_code r')),
               st ++ [Service.Called get out; Service.Called put out';
                      Service.Noted
                        (if in_200_201 (status_code r')
                         then Service.IndexCreated RagQuery.ELASTIC_INDEX
                         else Service.IndexCreateFailed RagQuery.ELASTIC_INDEX
                                (status_code r') (text r'))])
          | Fails e' =>
              if Service.is_request_exception e' then
                (Ok false,
                 st ++ [Service.Called get out; Service.Called put out';
                        Service.Noted (Service.IndexUnreachable RagQuery.ELASTIC_INDEX e')])
              else (Raise e', st ++ [Service.Called get out; Service.Called put out'])
          end
        else (Raise e, st ++ [Service.Called get out])
    end.
Proof.
  intros get put out out'. subst out'.
  unfold Service.ensure_elastic_index, mbind, Service.sio_bind, Service.try_requests,
    Service.request, Service.say, mret, Service.sio_ret.
  fold get put. fold out.
  destruct out as [r|e].
  - destruct (status_code r =? 200)%Z.
    + by rewrite <- (assoc_L (++)).
    + destruct (Service.answers W _ put) as [r'|e'].
      * destruct (in_200_201 (status_code r')); by rewrite <- !(assoc_L (++)).
      * destruct (Service.is_request_exception e'); by rewrite <- !(assoc_L (++)).
  - destruct (Service.is_request_exception e); [|done].
    destruct (Service.answers W _ put) as [r'|e'].
    + destruct (in_200_201 (status_code r')); by rewrite <- !(assoc_L (++)).
    + destruct (Service.is_request_exception e'); by rewrite <- !(assoc_L (++)).
Qed.

(** X14: the index check asks for the index first, with a GET, and sends
    the PUT that creates it, once and after the GET, exactly when the GET
    was answered with a status other than 200 or failed with an exception
    of the requests library; it sends nothing else, and nothing to the log
    sink. *)
Theorem ensure_index_calls timeout st :
  let get := Service.Get RagQuery.ELASTIC_INDEX_URL timeout in
  let put := Service.Put RagQuery.ELASTIC_INDEX_URL Service.DEFAULT_MAPPING timeout in
  ∃ res new out,
    Service.ensure_elastic_index W timeout st = (res, st ++ new) ∧
    Service.base_events new = [] ∧
    out = Service.answers W st get ∧
    ((Service.calls new = [(get, out)] ∧ ¬ get_inconclusive out) ∨
     (∃ out', Service.calls new = [(get, out); (put, out')] ∧ get_inconclusive out)).
Proof.
  intros get put. pose proof (ensure_run timeout st) as Hrun. cbn zeta in Hrun.
  fold get put in Hrun. rewrite Hrun.
  destruct (Service.answers W st get) as [r|e] eqn:Hget.
  - destruct (Z.eqb_spec (status_code r) 200) as [H200|H200].
    + eexists _, _, _. split; [reflexivity|]. split; [reflexivity|]. split; [reflexivity|].
      left. split; [done|]. simpl. by intros [].
    + destruct (Service.answers W _ put) as [r'|e'] eqn:Hput.
      * eexists _, _, _. split; [reflexivity|]. split; [reflexivity|]. split; [reflexivity|].
        right. by eexists.
      * destruct (Service.is_request_exception e');
          (eexists _, _, _; split; [reflexivity|]; split; [reflexivity|]; split; [reflexivity|];
           right; by eexists).
  - destruct (Service.is_request_exception e) eqn:He.
    + destruct (Service.answers W _ put) as [r'|e'] eqn:Hput.
      * eexists _, _, _. split; [reflexivity|]. split; [reflexivity|]. split; [reflexivity|].
        right. by eexists.
      * destruct (Service.is_request_exception e');
          (eexists _, _, _; split; [reflexivity|]; split; [reflexivity|]; split; [reflexivity|];
           right; by eexists).
    + eexists _, _, _. split; [reflexivity|]. split; [reflexivity|]. split; [reflexivity|].
      left. split; [done|]. simpl. by rewrite He.
Qed.

(** X15: the index check returns [True] exactly when its last call was
    answered with a status that shows the index (200 to the GET, 200 or
    201 to the PUT), and every time it returns it has printed one line.
    An exception of the requests library never leaves it: what it raises
    is an exception of another kind, raised by its last call, and then it
    has printed nothing. *)
Theorem ensure_index_result timeout st :
  ∃ res new,
    Service.ensure_elastic_index W timeout st = (res, st ++ new) ∧
    match res with
    | Ok b =>
        (∃ line, Service.notes new = [line]) ∧
        (∃ p, last (Service.calls new) = Some p ∧ b = index_ready p)
    | Raise e =>
        Service.is_request_exception e = false ∧
        Service.notes new = [] ∧
        ∃ c, last (Service.calls new) = Some (c, Fails e)
    end.
Proof.
  pose proof (ensure_run timeout st) as Hrun. cbn zeta in Hrun. rewrite Hrun.
  set (get := Service.Get RagQuery.ELASTIC_INDEX_URL timeout).
  set (put := Service.Put RagQuery.ELASTIC_INDEX_URL Service.DEFAULT_MAPPING timeout).
  destruct (Service.answers W st get) as [r|e] eqn:Hget.
  - destruct (status_code r =? 200)%Z eqn:H200.
    + eexists _, _. split; [done|]. split; [by eexists|].
      eexists. split; [done|]. simpl. by rewrite H200.
    + destruct (Service.answers W _ put) as [r'|e'] eqn:Hput.
      * eexists _, _. split; [done|]. split; [by eexists|]. by eexists.
      * destruct (Service.is_request_exception e') eqn:He'.
        -- eexists _, _. split; [done|]. split; [by eexists|]. by eexists.
        -- eexists _, _. split; [done|]. split; [done|]. split; [done|]. by eexists.
  - destruct (Service.is_request_exception e) eqn:He.
    + destruct (Service.answers W _ put) as [r'|e'] eqn:Hput.
      * eexists _, _. split; [done|]. split; [by eexists|]. by eexists.
      * destruct (Service.is_request_exception e') eqn:He'.
        -- eexists _, _. split; [done|]. split; [by eexists|]. by eexists.
        -- eexists _, _. split; [done|]. split; [done|]. split; [done|]. by eexists.
    + eexists _, _. split; [done|]. split; [done|]. split; [done|]. by eexists.
Qed.

(** *** The logger *)

Context (float_repr : F → pystr) (round3 : F → F).

Lemma failed_attempts_posts (req : request F) backoff turn es :
  (∃ u h b t, req = POST u h b t) →
  posts (failed_attempts req backoff turn es) = (λ e, (req, Fails e)) <$> es.
Proof.
  intros (u & h & b & t & ->). revert turn.
  induction es as [|e es IH]; intros turn; [done|]. cbn [failed_attempts].
  change (?x :: ?y :: ?l) with ([x; y] ++ l). by rewrite posts_app, IH.
Qed.

Lemma failed_attempts_sleeps (req : request F) backoff turn es :
  sleeps (failed_attempts req backoff turn es) =
    (λ k, Float.mul backoff (Float.of_int (turn + Z.of_nat k + 1))) <$>
      seq 0 (length es).
Proof.
  revert turn. induction es as [|e es IH]; intros turn; [done|].
  cbn [failed_attempts length seq].
  change (?x :: ?y :: ?l) with ([x; y] ++ l). rewrite sleeps_app, IH.
  rewrite <- fmap_S_seq, fmap_cons, <- list_fmap_compose.
  change (sleeps [_; _]) with [Float.mul backoff (Float.of_int (turn + 1))]. cbn [app].
  f_equal; [by rewrite Z.add_0_r|].
  apply list_fmap_ext. intros _ k _. unfold compose. do 2 f_equal. lia.
Qed.

(** What the logger does: the clock, three lines, the retry helper in the
    environment the history selects, and the report of its outcome. *)
Lemma log_run q answer retrieval_time gen_time status st :
  let now := utcnow (Service.base_env W st) [] in
  let entry := Service.log_entry_of round3 now q answer retrieval_time gen_time status in
  let req := retry_request float_repr RagQuery.ELASTIC_DOC_URL entry in
  let intro :=
    [Service.Base (Clock now);
     Service.Noted Service.DebugAttempt;
     Service.Noted (Service.DebugUrl RagQuery.ELASTIC_DOC_URL);
     Service.Noted (Service.DebugPayload
                      (slice_to 500 (Service.dumps_indented float_repr 2 0 entry)))] in
  ∃ (es : list exn) (out : outcome),
    Service.log_to_elasticsearch W float_repr round3 q answer retrieval_time gen_time
        status st =
      (Ok tt, st ++ intro ++
              (Service.Base <$> failed_attempts req (1 # 2) 0 es) ++
              match out with
              | Returns r => [Service.Base (Http req out)]
              | Fails _ => []
              end ++
              (Service.Noted <$> log_report out)) ∧
    match out with
    | Returns r => (length es < 3)%nat
    | Fails e => length es = 3%nat ∧ last es = Some e
    end.
Proof.
  intros now entry req intro.
  unfold Service.log_to_elasticsearch, mbind, Service.sio_bind, Service.run_base,
    utcnow_isoformat, Service.say, Service.try_any.
  fold now. cbn [app fmap list_fmap]. fold entry.
  rewrite <- !(assoc_L (++)). cbn [app]. fold intro.
  unfold RagQuery._post_json_with_retries, range. change (Z.to_nat 3) with 3%nat.
  destruct (retry_loop_schedule float_repr (Service.base_env W (st ++ intro))
              RagQuery.ELASTIC_DOC_URL entry (1 # 2) 0 3 None [] ltac:(lra))
    as [es [[Hrun Hlen]|(r & Hrun & Hlen)]]; fold req in Hrun.
  - rewrite Hrun. change (option_list None ++ es) with es.
    destruct (last es) as [e|] eqn:Hlast; [|by apply last_None in Hlast; subst es].
    exists es, (Fails e). split; [|done]. cbn [default log_report fmap list_fmap app].
    by rewrite <- !(assoc_L (++)).
  - rewrite Hrun. exists es, (Returns r). split; [|done].
    cbn [app log_report]. rewrite fmap_app.
    destruct (in_200_201 (status_code r));
      cbn [fmap list_fmap app]; by rewrite <- !(assoc_L (++)).
Qed.

Lemma failed_attempts_gets (req : request F) backoff turn es :
  (∃ u h b t, req = POST u h b t) → gets (failed_attempts req backoff turn es) = [].
Proof.
  intros (u & h & b & t & ->). revert turn.
  induction es as [|e es IH]; intros turn; [done|]. cbn [failed_attempts].
  change (?x :: ?y :: ?l) with ([x; y] ++ l). by rewrite gets_app, IH.
Qed.

Lemma retry_request_is_post url (payload : json F) :
  ∃ u h b t, retry_request float_repr url payload = POST u h b t.
Proof. by eexists _, _, _, _. Qed.

Lemma half_second_sleeps (req : request F) es :
  (length es ≤ 3)%nat → (total (sleeps (failed_attempts req (1 # 2) 0 es)) <= 3)%Q.
Proof.
  intros Hlen. rewrite failed_attempts_sleeps.
  destruct es as [|e1 [|e2 [|e3 [|e4 es]]]]; [by vm_compute..|simpl in Hlen; lia].
Qed.

(** X16: the logger never raises, whatever the sink does. It reads the
    clock once, then posts its entry, the same request each time, at least
    once and at most three times, sleeping no more than three seconds in
    all; it sends no other request. *)
Theorem log_never_raises q answer retrieval_time gen_time status st :
  ∃ new now rest,
    Service.log_to_elasticsearch W float_repr round3 q answer retrieval_time gen_time
        status st = (Ok tt, st ++ new) ∧
    Service.calls new = [] ∧
    Service.base_events new = Clock now :: rest ∧
    now = utcnow (Service.base_env W st) [] ∧
    gets rest = [] ∧
    (1 ≤ length (posts rest) ≤ 3)%nat ∧
    Forall (λ p, p.1 = retry_request float_repr RagQuery.ELASTIC_DOC_URL
                         (Service.log_entry_of round3 now q answer retrieval_time
                            gen_time status))
           (posts rest) ∧
    (total (sleeps rest) <= 3)%Q.
Proof.
  destruct (log_run q answer retrieval_time gen_time status st) as (es & out & Hrun & Hout).
  cbn zeta in Hrun.
  set (now := utcnow (Service.base_env W st) []) in *.
  set (entry := Service.log_entry_of round3 now q answer retrieval_time gen_time status) in *.
  set (req := retry_request float_repr RagQuery.ELASTIC_DOC_URL entry) in *.
  pose proof (retry_request_is_post RagQuery.ELASTIC_DOC_URL entry) as Hpost.
  fold req in Hpost.
  eexists _, now, (failed_attempts req (1 # 2) 0 es ++
                   match out with Returns _ => [Http req out] | Fails _ => [] end).
  split; [exact Hrun|].
  split.
  { rewrite (calls_app [_; _; _; _]), !calls_app, calls_Base.
    destruct out as [r|e]; [|done]. simpl. by destruct (in_200_201 (status_code r)). }
  split.
  { rewrite (base_events_app [_; _; _; _]), !base_events_app, base_events_Base.
    destruct out as [r|e]; simpl.
    - by destruct (in_200_201 (status_code r)).
    - done. }
  split; [done|].
  rewrite gets_app, posts_app, sleeps_app, failed_attempts_gets, failed_attempts_posts
    by done.
  assert (length es ≤ 3)%nat as Hlen by (destruct out; lia).
  pose proof (half_second_sleeps req es Hlen) as Hslept.
  destruct Hpost as (u & h & b & t & Hreq).
  change (retry_request _ _ _) with req.
  assert (gets [Http req out] = [] ∧ posts [Http req out] = [(req, out)] ∧
          sleeps [Http req out] = []) as (Hg & Hp & Hs) by (by rewrite Hreq).
  destruct out as [r|e].
  - rewrite Hg, Hp, Hs, length_app, length_fmap, !app_nil_r. cbn [length].
    split; [done|]. split; [lia|]. split; [|exact Hslept].
    apply Forall_app. split; [by apply Forall_fmap, Forall_true|].
    by apply Forall_singleton.
  - rewrite !app_nil_r, length_fmap. split; [done|]. split; [lia|]. split.
    + by apply Forall_fmap, Forall_true.
    + exact Hslept.
Qed.

(** X17: what the logger prints after its three opening lines follows the
    outcome of its last post: for a response the status, then the success
    line if the status is 200 or 201 and else the failure line with the
    status and the first 300 characters of the body; for an exception, which
    takes three posts, the line that names it. The payload preview has at
    most 500 characters. *)
Theorem log_reports_last_post q answer retrieval_time gen_time status st :
  ∃ new out preview,
    Service.log_to_elasticsearch W float_repr round3 q answer retrieval_time gen_time
        status st = (Ok tt, st ++ new) ∧
    snd <$> last (posts (Service.base_events new)) = Some out ∧
    Service.notes new =
      [Service.DebugAttempt; Service.DebugUrl RagQuery.ELASTIC_DOC_URL;
       Service.DebugPayload preview] ++ log_report out ∧
    (length preview ≤ 500)%nat ∧
    (∀ e, out = Fails e → length (posts (Service.base_events new)) = 3%nat).
Proof.
  destruct (log_run q answer retrieval_time gen_time status st) as (es & out & Hrun & Hout).
  cbn zeta in Hrun.
  set (now := utcnow (Service.base_env W st) []) in *.
  set (entry := Service.log_entry_of round3 now q answer retrieval_time gen_time status) in *.
  set (req := retry_request float_repr RagQuery.ELASTIC_DOC_URL entry) in *.
  pose proof (retry_request_is_post RagQuery.ELASTIC_DOC_URL entry) as Hpost.
  fold req in Hpost.
  eexists _, out, _. split; [exact Hrun|].
  rewrite (base_events_app [_; _; _; _]), !base_events_app, base_events_Base.
  rewrite (notes_app [_; _; _; _]), !notes_app, notes_Base.
  assert (Service.base_events (Service.Noted <$> log_report out) = [] ∧
          Service.notes (Service.Noted <$> log_report out) = log_report out)
    as [-> ->].
  { destruct out as [r|e]; [|done]. simpl. by destruct (in_200_201 (status_code r)). }
  rewrite app_nil_r, !posts_app, failed_attempts_posts by done.
  destruct Hpost as (u & h & b & t & Hreq).
  assert (posts (Service.base_events
                   match out with
                   | Returns _ => [Service.Base (Http req out)]
                   | Fails _ => []
                   end) =
          match out with Returns _ => [(req, out)] | Fails _ => [] end) as ->
    by (destruct out; by rewrite ?Hreq).
  change (posts (Service.base_events [_; _; _; _])) with (@nil (request F * outcome)).
  cbn [app].
  split; [|split; [|split]].
  - destruct out as [r|e].
    + by rewrite last_snoc.
    + destruct Hout as [Hlen Hlast]. by rewrite !app_nil_r, fmap_last, Hlast.
  - destruct out as [r|e]; reflexivity.
  - unfold slice_to. rewrite length_take. lia.
  - intros e ->. destruct Hout as [Hlen _]. by rewrite !app_nil_r, length_fmap.
Qed.

(** X18: a status is not retried. When the sink answers the first post with
    a response, whatever its status, the logger posts once and does not
    sleep; it prints the status and the success or failure line, and
    returns. *)
Theorem log_posts_once_on_response q answer retrieval_time gen_time status st r :
  (∀ st' req, net (Service.base_env W st') [] req = Returns r) →
  ∃ new req,
    Service.log_to_elasticsearch W float_repr round3 q answer retrieval_time gen_time
        status st = (Ok tt, st ++ new) ∧
    posts (Service.base_events new) = [(req, Returns r)] ∧
    sleeps (Service.base_events new) = [] ∧
    drop 3 (Service.notes new) = log_report (Returns r).
Proof.
  intros Hnet.
  unfold Service.log_to_elasticsearch, mbind, Service.sio_bind, Service.run_base,
    utcnow_isoformat, Service.say, Service.try_any.
  cbn [app fmap list_fmap]. rewrite <- !(assoc_L (++)). cbn [app].
  unfold RagQuery._post_json_with_retries, range. change (Z.to_nat 3) with 3%nat.
  cbn [seq fmap list_fmap].
  erewrite retry_loop_returns by apply Hnet.
  destruct (in_200_201 (status_code r)) eqn:Hcode;
    (eexists _, _; split;
     [cbn [app fmap list_fmap]; rewrite <- !(assoc_L (++)); cbn [app]; reflexivity|]);
    cbn; by rewrite Hcode.
Qed.
End ServiceFacts.

(** The chunker on a text with runs of whitespace, and [json.dumps] with
    [indent=2] on nested values. *)
Example chunk_text_sample :
  RagIngest.chunk_text chunk_sample 2 = Ok [lit "a bb"; lit "c dd"; lit "e"].
Proof. vm_compute. reflexivity. Qed.

Example dumps_indented_sample :
  Service.dumps_indented integral_repr 2 0
    (JDict [(lit "a", JStr (lit "x"));
            (lit "b", JList [JInt 1; JDict []; JList []; JDict [(lit "c", JNull)]])])
  = dq "{" ++ nl ++ dq "  'a': 'x'," ++ nl ++ dq "  'b': [" ++ nl ++ dq "    1," ++ nl ++
    dq "    {}," ++ nl ++ dq "    []," ++ nl ++ dq "    {" ++ nl ++ dq "      'c': null" ++ nl ++
    dq "    }" ++ nl ++ dq "  ]" ++ nl ++ dq "}".
Proof. vm_compute. reflexivity. Qed.

(** ** The further properties at work *)

(** Decides a closed statement on the code points of a literal. *)
Ltac by_decision := apply (bool_decide_unpack _); vm_compute; exact I.

Lemma parse_entries_from_lines_witness :
  (∃ line, line ∈ Str.splitlines scenario_text ∧
           well_formed Decimal.float line (lit "rag_queries_total") (Decimal.Finite 42)) ∧
  token (lit "rag_queries_total") ∧ 123 ∉ lit "rag_queries_total".
Proof.
  apply (parse_entries_from_lines Decimal.float scenario_text scenario_metrics).
  - apply scenario_parse.
  - vm_compute. reflexivity.
Defined.

Lemma service_name_is_port_witness :
  Bridge.service_name_of
    (lit "http" ++ [58] ++ lit "//localhost" ++ [58] ++ lit "8000" ++ lit "/metrics") =
    Ok (lit "8000").
Proof.
  apply (service_name_is_port (lit "http") (lit "//localhost") (lit "8000") (lit "/metrics"));
    [by_decision..|].
  right. reflexivity.
Defined.

Lemma tick_stops_at_bad_url_witness :
  ∃ new,
    Bridge.tick_over Decimal.float (source_answers 200)
      ([source_A] ++ bare_endpoint :: [source_B]) [] = (Raise IndexError, [] ++ new) ∧
    (gets new).*1 = [source_A] ∧
    sleeps new = [].
Proof.
  apply (tick_stops_at_bad_url Decimal.float (source_answers 200)
           [source_A] [source_B] bare_endpoint []).
  - apply Forall_singleton. exists (lit "8000"). vm_compute. reflexivity.
  - vm_compute. lia.
Defined.

Lemma retry_schedule_witness :
  ∃ es : list exn,
    (RagQuery._post_json_with_retries integral_repr sink_raises_twice
       RagQuery.ELASTIC_DOC_URL log_entry 3 (1 # 2) [] =
       (Raise (default TypeError (last es)),
        [] ++ failed_attempts log_request (1 # 2) 0 es) ∧
     Z.of_nat (length es) = Z.max 0 3) ∨
    (∃ r, RagQuery._post_json_with_retries integral_repr sink_raises_twice
            RagQuery.ELASTIC_DOC_URL log_entry 3 (1 # 2) [] =
            (Ok r, [] ++ failed_attempts log_request (1 # 2) 0 es ++
                         [Http log_request (Returns r)]) ∧
          (Z.of_nat (length es) < 3)%Z).
Proof.
  apply (retry_schedule integral_repr sink_raises_twice RagQuery.ELASTIC_DOC_URL
           log_entry 3 (1 # 2) []).
  discriminate.
Defined.

Lemma retry_without_attempts_witness :
  RagQuery._post_json_with_retries integral_repr sink_accepts
    RagQuery.ELASTIC_DOC_URL log_entry 0 (1 # 2) [] = (Raise TypeError, []).
Proof.
  apply (retry_without_attempts integral_repr sink_accepts RagQuery.ELASTIC_DOC_URL
           log_entry 0 (1 # 2) []).
  lia.
Defined.

Lemma retry_negative_backoff_witness :
  RagQuery._post_json_with_retries integral_repr sink_down
    RagQuery.ELASTIC_DOC_URL log_entry 3 (- 1 # 2) [] =
    (Raise ValueError, [Http log_request (Fails ConnectionError)]).
Proof.
  apply (retry_negative_backoff integral_repr sink_down RagQuery.ELASTIC_DOC_URL
           log_entry 3 (- 1 # 2) []).
  - lia.
  - by exists (-1)%Z, (-1)%Z.
  - reflexivity.
Defined.

Lemma integral_repr_printable (z : Z) : printable (integral_repr z).
Proof.
  unfold integral_repr. apply printable_app. split; [apply dumps_int_printable|].
  apply printable_check. reflexivity.
Qed.

Lemma bulk_body_is_ascii_witness :
  Forall (λ c, c = 10 ∨ 32 ≤ c ≤ 126) (PromToEs.bulk_data_of integral_repr mock_points) ∧
  Forall (λ c, c = 10 ∨ 32 ≤ c ≤ 126) (LoadMock.bulk_body integral_repr mock_points).
Proof.
  apply (bulk_body_is_ascii integral_repr mock_points).
  exact integral_repr_printable.
Defined.

Lemma chunks_keep_words_witness :
  ∃ chunks,
    RagIngest.chunk_text chunk_sample 2 = Ok chunks ∧
    mjoin (Str.split <$> chunks) = Str.split chunk_sample ∧
    Forall (λ c, Str.join (lit " ") (Str.split c) = c) chunks.
Proof. apply (chunks_keep_words chunk_sample 2). lia. Defined.

Lemma chunk_sizes_witness :
  ∃ chunks,
    RagIngest.chunk_text chunk_sample 2 = Ok chunks ∧
    Z.of_nat (length chunks) =
      ((Z.of_nat (length (Str.split chunk_sample)) + 2 - 1) / 2)%Z ∧
    Forall (λ c, (1 ≤ Z.of_nat (length (Str.split c)) ≤ 2)%Z) chunks ∧
    ∀ i c, chunks !! i = Some c → (S i < length chunks)%nat →
           Z.of_nat (length (Str.split c)) = 2%Z.
Proof. apply (chunk_sizes chunk_sample 2). lia. Defined.

Lemma chunk_edge_cases_witness :
  RagIngest.chunk_text chunk_sample 0 = Raise ValueError ∧
  RagIngest.chunk_text chunk_sample (-2) = Ok [] ∧
  RagIngest.chunk_text (lit "   ") RagIngest.CHUNK_SIZE = Ok [].
Proof.
  destruct (chunk_edge_cases chunk_sample 0) as (Hzero & _ & _).
  destruct (chunk_edge_cases chunk_sample (-2)) as (_ & Hneg & _).
  destruct (chunk_edge_cases (lit "   ") RagIngest.CHUNK_SIZE) as (_ & _ & Hblank).
  split; [|split].
  - apply Hzero. reflexivity.
  - apply Hneg. lia.
  - apply Hblank; [discriminate|]. repeat constructor.
Defined.

Lemma log_posts_once_on_response_witness :
  ∃ new req,
    Service.log_to_elasticsearch log_sink_503 integral_repr (λ x, x)
      (lit "what is a tick?") (lit "One round of polling.") 2%Z 3%Z (lit "success") [] =
      (Ok tt, [] ++ new) ∧
    posts (Service.base_events new) = [(req, Returns (answer 503))] ∧
    sleeps (Service.base_events new) = [] ∧
    drop 3 (Service.notes new) = log_report (Returns (answer 503)).
Proof.
  apply (log_posts_once_on_response log_sink_503 integral_repr (λ x, x)
           (lit "what is a tick?") (lit "One round of polling.") 2%Z 3%Z (lit "success")
           [] (answer 503)).
  intros st' req. reflexivity.
Defined.
